(** * Primitive arbitraries of jsverify ([lib/primitive.js])

    A shallow embedding of the primitive-value layer of the property-based
    testing library: the rescaling combinator [numeric], the numeric
    arbitraries with their shrink algorithms, [elements] and [datetime].

    JavaScript integers are modelled as [Z]: up to magnitude [2^53] a
    JavaScript number holds every integer exactly, and what the integer
    and nat arbitraries compute there is integer arithmetic.  Beyond,
    [j += k] in the shrink loops rounds; [shrink_loop64] writes that
    rounding out, and the theorems on the shrinkers are stated where the
    two agree.  The values of the [number] arbitrary are IEEE 754
    binary64 numbers ([PrimFloat.float]), which is what a JavaScript
    number is. *)

From Stdlib Require Import ZArith List Bool String Lia Sorted.
From Stdlib Require Import Floats.
From Equations Require Import Equations.
Import ListNotations.

Set Warnings "-inexact-float".
Local Open Scope Z_scope.

(** ** JavaScript values and built-ins *)

(** What the module needs of a JavaScript number: [Math.abs], [+], binary
    [-] and the truthiness test behind [maxsize || size]. *)
Class Number (N : Type) := {
  num_abs : N -> N;
  num_add : N -> N -> N;
  num_sub : N -> N -> N;
  truthy : N -> bool }.

#[export] Instance Z_Number : Number Z := {|
  num_abs := Z.abs;
  num_add := Z.add;
  num_sub := Z.sub;
  truthy := fun x => negb (x =? 0) |}.

(** A binary64 number is falsy when it is [+0], [-0] or [NaN]. *)
#[export] Instance float_Number : Number float := {|
  num_abs := PrimFloat.abs;
  num_add := PrimFloat.add;
  num_sub := PrimFloat.sub;
  truthy := fun x => negb (is_zero x || is_nan x) |}.

(** [maxsize || size], where [maxsize] is [undefined] ([None]) when the
    argument was not passed. *)
Definition or_size {N} `{Number N} (maxsize : option N) (size : N) : N :=
  match maxsize with
  | Some m => if truthy m then m else size
  | None => size
  end.

(** Values an array handed to [elements] may hold.  Objects are kept by
    reference, which is all [===] looks at. *)
Inductive value : Type :=
| VUndefined
| VNull
| VBool (b : bool)
| VNumber (x : float)
| VString (s : string)
| VObject (ref : positive).

(** Strict equality [===]: numbers compare as IEEE 754 prescribes (so
    [NaN !== NaN] and [+0 === -0]), objects by identity. *)
Definition strict_eq (x y : value) : bool :=
  match x, y with
  | VUndefined, VUndefined => true
  | VNull, VNull => true
  | VBool a, VBool b => Bool.eqb a b
  | VNumber a, VNumber b => PrimFloat.eqb a b
  | VString a, VString b => String.eqb a b
  | VObject a, VObject b => Pos.eqb a b
  | _, _ => false
  end.

(** [Array.prototype.indexOf]: the first index holding a value strictly
    equal to [x], or [-1]. *)
Fixpoint indexOf_from (args : list value) (x : value) (k : Z) : Z :=
  match args with
  | [] => -1
  | y :: rest => if strict_eq y x then k else indexOf_from rest x (k + 1)
  end.

Definition indexOf (args : list value) (x : value) : Z :=
  indexOf_from args x 0.

(** [args.slice(0, idx)] for a non-negative [idx]. *)
Definition slice0 (args : list value) (idx : Z) : list value :=
  firstn (Z.to_nat idx) args.

(** [args[i]]: reading outside the array gives [undefined]. *)
Definition get (args : list value) (i : Z) : value :=
  if i <? 0 then VUndefined
  else match nth_error args (Z.to_nat i) with
       | Some v => v
       | None => VUndefined
       end.

(** Exceptions: a call either returns or throws with a message. *)
Inductive result (A : Type) : Type :=
| Return (a : A)
| Throw (message : string).
Arguments Return {A} a.
Arguments Throw {A} message.

Definition bind {A B} (r : result A) (k : A -> result B) : result B :=
  match r with
  | Return a => k a
  | Throw message => Throw message
  end.

Notation "r ;; k" := (bind r (fun _ => k))
  (at level 61, right associativity).

(** Node's [assert(value, message)]. *)
Definition assert (v : bool) (message : string) : result unit :=
  if v then Return tt else Throw message.

(** *** Dates

    A [Date] object holds a time value: an integral number of milliseconds
    of magnitude at most 8.64e15, or [NaN]. *)

(** Truncation towards zero of a finite number. *)
Definition SFtrunc (x : spec_float) : Z :=
  match x with
  | S754_finite s m e => cond_Zopp s (Z.shiftl (Z.pos m) e)
  | _ => 0
  end.

Definition ToIntegerOrInfinity (x : float) : Z := SFtrunc (Prim2SF x).

(** The number nearest to an integer. *)
Definition Z2float (n : Z) : float :=
  SF2Prim (binary_normalize prec emax n 0 false).

(** [m * 2^e] is the binary64 representation of the integer [p]: a
    mantissa of 53 digits, shifted as far as that takes. *)
Definition represents (m : positive) (e : Z) (p : positive) : Prop :=
  Z.pos (digits2_pos m) = 53 /\ -52 <= e <= 0 /\
  Z.pos m = Z.pos p * 2 ^ (- e).

(** ECMAScript's [TimeClip]. *)
Definition TimeClip (time : float) : float :=
  if negb (is_finite time) then nan
  else if (8.64e15 <? abs time)%float then nan
  else Z2float (ToIntegerOrInfinity time).

Record Date : Type := { getTime : float }.

(** [new Date(x)] for a number [x]. *)
Definition newDate (x : float) : Date := {| getTime := TimeClip x |}.

(** ** Collaborators

    [random.js], [generator.js], [shrink.js], [show.js] and [utils.js] are
    required by the module but are not part of it. *)

(** The random source: what [random(min, max)] and
    [random.number(min, max)] answer when asked. *)
Record RandomSource : Type := {
  random : Z -> Z -> Z;
  random_number : float -> float -> float }.

(** The contract of the integer sampler: inclusive bounds. *)
Definition in_bounds (rnd : RandomSource) : Prop :=
  forall lo hi, lo <= hi -> lo <= random rnd lo hi <= hi.

(** Modelled from the spec: [utils.div2], the integer division by two used
    by the shrink loops ("[a/2] (integer division)"). *)
Definition div2 (x : Z) : Z := x / 2.

(** A generator maps a size hint to a value, consulting the random
    source; a shrinker maps a value to its candidates. *)
Definition Generator (S T : Type) : Type := RandomSource -> S -> T.
Definition Shrinker (T : Type) : Type := T -> list T.

(** The renderer: the collaborator's default one, or a function of the
    module's own. *)
Inductive Show (T : Type) : Type :=
| show_def
| show_fun (f : T -> string).
Arguments show_def {T}.
Arguments show_fun {T} f.

Module generator.
(** Modelled from the spec: [generator.bless], "fromSizeFunction". *)
Definition bless {S T} (f : RandomSource -> S -> T) : Generator S T := f.

(** Modelled from the spec: the structure-preserving map of a blessed
    generator. *)
Definition map {S T U} (g : Generator S T) (f : T -> U) : Generator S U :=
  fun rnd size => f (g rnd size).

(** Modelled from the spec: [generator.constant]. *)
Definition constant {S T} (x : T) : Generator S T := fun _ _ => x.
End generator.

Module shrink.
(** Modelled from the spec: [shrink.bless], "fromCandidateFunction". *)
Definition bless {T} (f : T -> list T) : Shrinker T := f.

(** Modelled from the spec: [shrink.noop], the empty sequence. *)
Definition noop {T} : Shrinker T := fun _ => [].

(** Modelled from the spec: [isomap]; [from] takes the counterexample
    back, the old shrinker runs, [to] converts its candidates. *)
Definition isomap {T U} (s : Shrinker T) (to : T -> U) (from : U -> T)
  : Shrinker U :=
  fun u => List.map to (s (from u)).
End shrink.

(** The arbitrary triple. *)
Record arbitrary (S T : Type) : Type := {
  arb_generator : Generator S T;
  arb_shrink : Shrinker T;
  arb_show : Show T }.
Arguments arb_generator {S T} a.
Arguments arb_shrink {S T} a.
Arguments arb_show {S T} a.

(** How many arguments a numeric constructor was called with. *)
Inductive arguments (N : Type) : Type :=
| Args0
| Args1 (minsize : N)
| Args2 (minsize maxsize : N).
Arguments Args0 {N}.
Arguments Args1 {N} minsize.
Arguments Args2 {N} minsize maxsize.

(** ** The module *)

Module primitive.

(** [extendWithDefault(arb)]: the constructor called without arguments
    lends its three fields to the constructor itself. *)
Definition extendWithDefault {A S T} (arb : A -> arbitrary S T) (noarg : A)
  : arbitrary S T :=
  let def := arb noarg in
  {| arb_generator := arb_generator def;
     arb_shrink := arb_shrink def;
     arb_show := arb_show def |}.

(** The two conversions of the two-argument rescale. *)
Definition to {N} `{Number N} (minsize x : N) : N :=
  num_add (num_abs x) minsize.

Definition from {N} `{Number N} (minsize x : N) : N :=
  num_sub x minsize.

Definition numeric {N} `{Number N} {S}
  (impl : option N -> arbitrary S N) (args : arguments N) : arbitrary S N :=
  match args with
  | Args2 minsize maxsize =>
      let arb := impl (Some (num_sub maxsize minsize)) in
      {| arb_generator := generator.map (arb_generator arb) (to minsize);
         arb_shrink := shrink.isomap (arb_shrink arb) (to minsize) (from minsize);
         arb_show := show_def |}
  | Args1 minsize => impl (Some minsize)
  | Args0 => impl None
  end.

(** The [while (j < i)] loop of the integer shrinker, on the integers a
    JavaScript number holds exactly (magnitude at most [2^53]; see
    [shrink_loop64] for the loop beyond).  [arr] is the array built so
    far; each turn pushes [j] and [-j], halves the step [k] (never below
    1) and advances [j] by it. *)
Equations? integer_shrink_loop (i j k : Z) (arr : list Z) : list Z
  by wf (Z.to_nat (i - j)) lt :=
  integer_shrink_loop i j k arr with Z_lt_dec j i => {
    | left _ =>
        let arr := arr ++ [j; - j] in
        let k := Z.max (div2 k) 1 in
        integer_shrink_loop i (j + k) k arr
    | right _ => arr }.
Proof. lia. Qed.

Definition integer_shrink (i : Z) : list Z :=
  let i := Z.abs i in
  if i =? 0 then []
  else
    let arr := [0] in
    let j := div2 i in
    let k := Z.max j 1 in
    integer_shrink_loop i j k arr.

Definition integer_impl (maxsize : option Z) : arbitrary Z Z :=
  {| arb_generator := generator.bless (fun rnd size =>
       let size := or_size maxsize size in
       random rnd (- size) size);
     arb_shrink := shrink.bless integer_shrink;
     arb_show := show_def |}.

Definition integer : arguments Z -> arbitrary Z Z := numeric integer_impl.

(** The loop of the natural-number shrinker, on the same integers. *)
Equations? nat_shrink_loop (i j k : Z) (arr : list Z) : list Z
  by wf (Z.to_nat (i - j)) lt :=
  nat_shrink_loop i j k arr with Z_lt_dec j i => {
    | left _ =>
        let arr := arr ++ [j] in
        let k := Z.max (div2 k) 1 in
        nat_shrink_loop i (j + k) k arr
    | right _ => arr }.
Proof. lia. Qed.

Definition nat_shrink (i : Z) : list Z :=
  let arr := [] in
  let j := div2 i in
  let k := Z.max j 1 in
  nat_shrink_loop i j k arr.

Definition nat (maxsize : option Z) : arbitrary Z Z :=
  {| arb_generator := generator.bless (fun rnd size =>
       let size := or_size maxsize size in
       random rnd 0 size);
     arb_shrink := shrink.bless nat_shrink;
     arb_show := show_def |}.

Definition number_shrink (x : float) : list float :=
  if (1e-6 <? abs x)%float then [0; x / 2; - x / 2]%float else [].

Definition number_impl (maxsize : option float) : arbitrary float float :=
  {| arb_generator := generator.bless (fun rnd size =>
       let size := or_size maxsize size in
       random_number rnd (- size)%float size);
     arb_shrink := shrink.bless number_shrink;
     arb_show := show_def |}.

Definition number : arguments float -> arbitrary float float :=
  numeric number_impl.

Definition uint8 := nat (Some 0xff).
Definition uint16 := nat (Some 0xffff).
Definition uint32 := nat (Some 0xffffffff).

Definition int8 := integer (Args1 0x80).
Definition int16 := integer (Args1 0x8000).
Definition int32 := integer (Args1 0x80000000).

Definition datetimeConst : float := 1416499879495%float.

(** [datetime(from, to)] when both endpoints are passed ([Some]), the
    default otherwise. *)
Definition datetime (args : option (Date * Date)) : arbitrary float Date :=
  match args with
  | Some (from, to) =>
      let toDate := fun x => newDate x in
      let fromDate := fun x => getTime x in
      let from := fromDate from in
      let to := fromDate to in
      let arb := number (Args2 from to) in
      {| arb_generator := generator.map (arb_generator arb) toDate;
         arb_shrink := shrink.isomap (arb_shrink arb) toDate fromDate;
         arb_show := show_def |}
  | None =>
      let toDate := fun x => newDate (x * 768000000 + datetimeConst)%float in
      let arb := extendWithDefault number Args0 in
      {| arb_generator := generator.map (arb_generator arb) toDate;
         arb_shrink := shrink.noop;
         arb_show := show_def |}
  end.

Definition elements_shrink (args : list value) (x : value) : list value :=
  let idx := indexOf args x in
  if idx <=? 0 then [] else slice0 args idx.

Definition elements {S} (args : list value) : result (arbitrary S value) :=
  assert (negb (Z.of_nat (List.length args) =? 0))
         "elements: at least one parameter expected" ;;
  Return
    {| arb_generator := generator.bless (fun rnd _ =>
         let i := random rnd 0 (Z.of_nat (List.length args) - 1) in
         get args i);
       arb_shrink := shrink.bless (elements_shrink args);
       arb_show := show_def |}.

(** The array [falsy] is built from. *)
Definition falsy_values : list value :=
  [VBool false; VNull; VUndefined; VString EmptyString; VNumber 0; VNumber nan].

(** The renderer of [falsy]; [toString] is the conversion behind
    ["falsy: " + v]. *)
Definition falsy_show (toString : value -> string) (v : value) : string :=
  if negb (strict_eq v v) then "falsy: NaN"
  else if strict_eq v (VString EmptyString) then "falsy: empty string"
  else if strict_eq v VUndefined then "falsy: undefined"
  else "falsy: " ++ toString v.

Definition falsy {S} (toString : value -> string)
  : result (arbitrary S value) :=
  bind (elements falsy_values) (fun falsy =>
  Return {| arb_generator := arb_generator falsy;
            arb_shrink := arb_shrink falsy;
            arb_show := show_fun (falsy_show toString) |}).

Definition constant {S T} (x : T) : arbitrary S T :=
  {| arb_generator := generator.constant x;
     arb_shrink := shrink.noop;
     arb_show := show_def |}.

(** [bool]; the shrinker takes any value and tests [b === true]. *)
Definition bool {S} : arbitrary S value :=
  {| arb_generator := generator.bless (fun rnd _ =>
       let i := random rnd 0 1 in
       if i =? 0 then VBool false else VBool true);
     arb_shrink := shrink.bless (fun b =>
       if strict_eq b (VBool true) then [VBool false] else []);
     arb_show := show_def |}.

End primitive.

(** ** The shrink schedule, as the specification words it

    Magnitudes start at [j] and grow by a step that starts at [k] and is
    halved, never below 1, before each move. *)

Fixpoint step_after (k : Z) (n : nat) : Z :=
  match n with
  | O => k
  | S n' => Z.max (step_after k n' / 2) 1
  end.

Fixpoint magnitude_after (j k : Z) (n : nat) : Z :=
  match n with
  | O => j
  | S n' => magnitude_after j k n' + step_after k n
  end.

(** The magnitudes tried for a failing value of magnitude [a]: they start
    at [a / 2], with a first step of [max (a / 2) 1] still to be halved. *)
Definition magnitude (a : Z) (n : nat) : Z :=
  magnitude_after (a / 2) (Z.max (a / 2) 1) n.

Definition magnitudes (a : Z) (n : nat) : list Z :=
  List.map (magnitude a) (seq 0 n).

(** Each magnitude with both signs, [+j] before [-j]. *)
Definition both_signs (l : list Z) : list Z :=
  flat_map (fun j => [j; - j]) l.

(** ** The shrink loops on binary64 numbers

    The loops of the two shrinkers compute on JavaScript numbers.  On
    numbers that hold integers, [Math.abs], [div2], [Math.max], the
    negation and [<] are exact; [j += k] rounds to the nearest binary64
    number.  Up to [2^53] every integer is held exactly and the loops are
    the recursions [integer_shrink_loop] and [nat_shrink_loop] above;
    beyond, the rounding shows. *)

(** The integers of magnitude at most [2^53]: a binary64 number holds
    each of them exactly. *)
Definition safe (n : Z) : Prop := Z.abs n <= 2 ^ 53.

(** The integer held by the binary64 number nearest to the integer [n]
    (ties to even), for [n] below the overflow threshold. *)
Definition round64 (n : Z) : Z :=
  SFtrunc (binary_normalize prec emax n 0 false).

(** The [while (j < i)] loop with the rounding of [j += k]; [push j] is
    what a turn appends to [arr].  A loop that is still running when the
    fuel is spent has not returned: [None]. *)
Fixpoint shrink_loop64 (push : Z -> list Z) (fuel : nat) (i j k : Z)
  (arr : list Z) : option (list Z) :=
  match fuel with
  | O => None
  | S fuel' =>
      if j <? i then
        let arr := arr ++ push j in
        let k := Z.max (div2 k) 1 in
        shrink_loop64 push fuel' i (round64 (j + k)) k arr
      else Some arr
  end.

(** The integer shrinker, on binary64 numbers that hold integers. *)
Definition integer_shrink64 (fuel : nat) (i : Z) : option (list Z) :=
  let i := Z.abs i in
  if i =? 0 then Some []
  else
    let arr := [0] in
    let j := div2 i in
    let k := Z.max j 1 in
    shrink_loop64 (fun j => [j; - j]) fuel i j k arr.

(** The nat shrinker, on binary64 numbers that hold integers. *)
Definition nat_shrink64 (fuel : nat) (i : Z) : option (list Z) :=
  let arr := [] in
  let j := div2 i in
  let k := Z.max j 1 in
  shrink_loop64 (fun j => [j]) fuel i j k arr.

(** [j] and [k] after [n] turns of the loop, and whether [j < i] held at
    each of these turns. *)
Fixpoint turns64 (n : nat) (j k : Z) : Z * Z :=
  match n with
  | O => (j, k)
  | S n' => let k := Z.max (div2 k) 1 in turns64 n' (round64 (j + k)) k
  end.

Fixpoint below64 (n : nat) (i j k : Z) : bool :=
  match n with
  | O => true
  | S n' =>
      (j <? i) &&
      (let k := Z.max (div2 k) 1 in below64 n' i (round64 (j + k)) k)
  end.

(** ** Sample random sources *)

(** A random source that answers with the upper bound. *)
Definition upper_source : RandomSource :=
  {| random := fun _ hi => hi; random_number := fun _ hi => hi |}.

(** A random source that answers with the lower bound. *)
Definition lower_source : RandomSource :=
  {| random := fun lo _ => lo; random_number := fun lo _ => lo |}.

(** A random source that answers [v] whenever the bounds allow it. *)
Definition source_of (v : Z) : RandomSource :=
  {| random := fun lo hi => if (lo <=? v) && (v <=? hi) then v else lo;
     random_number := fun lo _ => lo |}.

(** The same for [random.number]. *)
Definition number_source_of (x : float) : RandomSource :=
  {| random := fun lo _ => lo;
     random_number := fun lo hi =>
       if ((lo <=? x) && (x <=? hi))%float then x else lo |}.

(** * Properties *)

(** ** Comparisons of binary64 numbers *)

Section FloatOrder.
Local Open Scope float_scope.

Lemma SFcompare_swap (x y : spec_float) :
  SFcompare y x = option_map CompOpp (SFcompare x y).
Proof.
  destruct x as [sx | sx | | sx mx ex], y as [sy | sy | | sy my ey];
    simpl; try reflexivity;
    try (destruct sx; reflexivity); try (destruct sy; reflexivity);
    try (destruct sx, sy; reflexivity).
  destruct sx, sy; simpl; try reflexivity;
    rewrite (Z.compare_antisym ey ex);
    destruct (ey ?= ex)%Z; simpl; try reflexivity;
    change Eq with (CompOpp Eq) at 1;
    rewrite <- (Pos.compare_cont_antisym mx my Eq); simpl;
    rewrite ?CompOpp_involutive; reflexivity.
Qed.

Lemma leb_not_ltb (x y : float) : (x <=? y) = true -> (y <? x) = false.
Proof.
  rewrite leb_spec, ltb_spec. unfold SFleb, SFltb.
  rewrite (SFcompare_swap (Prim2SF x) (Prim2SF y)).
  destruct (SFcompare (Prim2SF x) (Prim2SF y)) as [[ | | ] | ];
    simpl; intros; try reflexivity; discriminate.
Qed.

End FloatOrder.

(** ** The number shrinker *)

(** C4: above the epsilon [1e-6] the number shrinker proposes exactly
    [0], [x/2] and [-x/2], in this order; at or below it, nothing.  It is
    the shrinker of [number()] and of [number(maxsize)] alike. *)
Theorem number_shrink_candidates (x : float) :
  arb_shrink (primitive.number Args0) x = primitive.number_shrink x /\
  (forall maxsize,
     arb_shrink (primitive.number (Args1 maxsize)) x
     = primitive.number_shrink x) /\
  ((1e-6 <? abs x)%float = true ->
     primitive.number_shrink x = [0; x / 2; - x / 2]%float) /\
  ((abs x <=? 1e-6)%float = true -> primitive.number_shrink x = []).
Proof.
  split; [reflexivity | split; [reflexivity | ]].
  unfold primitive.number_shrink. split; intros H.
  - now rewrite H.
  - now rewrite (leb_not_ltb _ _ H).
Qed.

Lemma number_shrink_candidates_witness :
  primitive.number_shrink 3 = [0; 1.5; -1.5]%float /\
  primitive.number_shrink 1e-7 = [].
Proof.
  split.
  - apply (proj1 (proj2 (proj2 (number_shrink_candidates 3)))).
    reflexivity.
  - apply (proj2 (proj2 (proj2 (number_shrink_candidates 1e-7)))).
    reflexivity.
Defined.

(** ** Time values

    Integers of magnitude up to 8.64e15 are below [2^53]: binary64 holds
    them exactly, with a mantissa shifted up to 53 digits, and truncation
    gives them back. *)

Lemma fexp_binary64 (x : Z) : fexp prec emax x = Z.max (x - 53) (-1074).
Proof. reflexivity. Qed.

Lemma digits2_pos_size (p : positive) : digits2_pos p = Pos.size p.
Proof. induction p; simpl; congruence. Qed.

Lemma digits2_pos_gt (p : positive) : Z.pos p < 2 ^ Z.pos (digits2_pos p).
Proof.
  rewrite digits2_pos_size.
  pose proof (Pos.size_gt p) as H.
  apply Pos2Z.pos_lt_pos in H. rewrite Pos2Z.inj_pow in H. exact H.
Qed.

Lemma digits2_pos_le (p : positive) : 2 ^ Z.pos (digits2_pos p) <= 2 * Z.pos p.
Proof.
  rewrite digits2_pos_size.
  pose proof (Pos.size_le p) as H.
  apply Pos2Z.pos_le_pos in H. rewrite Pos2Z.inj_pow in H. exact H.
Qed.

Lemma iter_xO_digits (p d : positive) :
  Z.pos (digits2_pos (Pos.iter xO p d)) = Z.pos (digits2_pos p) + Z.pos d.
Proof.
  induction d as [ | d IH] using Pos.peano_ind.
  - simpl. lia.
  - rewrite Pos.iter_succ. simpl digits2_pos. lia.
Qed.

Lemma iter_xO_value (p d : positive) :
  Z.pos (Pos.iter xO p d) = Z.pos p * 2 ^ Z.pos d.
Proof.
  induction d as [ | d IH] using Pos.peano_ind.
  - simpl. lia.
  - rewrite Pos.iter_succ, Pos2Z.inj_succ, Z.pow_succ_r by lia.
    rewrite Pos2Z.inj_xO, IH. ring.
Qed.

(** A mantissa of 53 digits needs no rounding. *)
Lemma binary_round_aux_exact (s : bool) (m : positive) (e : Z) :
  Z.pos (digits2_pos m) = 53 -> -1074 <= e <= 971 ->
  binary_round_aux prec emax s (Z.pos m) e loc_Exact = S754_finite s m e.
Proof.
  intros Hd He. unfold binary_round_aux.
  assert (Hshr : shr_fexp prec emax (Z.pos m) e loc_Exact
                 = ({| shr_m := Z.pos m; shr_r := false; shr_s := false |}, e)).
  { unfold shr_fexp. simpl Zdigits2. rewrite Hd, fexp_binary64.
    replace (Z.max (53 + e - 53) (-1074) - e) with 0 by lia.
    reflexivity. }
  rewrite Hshr. simpl. rewrite Hshr. simpl.
  destruct (Z.leb_spec e 971) as [_ | H]; [reflexivity | lia].
Qed.

(** Rounding an integer below [2^53] only shifts its mantissa. *)
Lemma binary_round_integer (s : bool) (p : positive) :
  Z.pos p < 2 ^ 53 ->
  exists m e, binary_round prec emax s p 0 = S754_finite s m e /\
              represents m e p.
Proof.
  intros Hp. unfold binary_round.
  rewrite fexp_binary64.
  pose proof (digits2_pos_le p) as Hle.
  assert (Hd : Z.pos (digits2_pos p) <= 53).
  { destruct (Z.le_gt_cases (Z.pos (digits2_pos p)) 53) as [H | H]; [exact H | ].
    assert (2 ^ 54 <= 2 ^ Z.pos (digits2_pos p)) by (apply Z.pow_le_mono_r; lia).
    lia. }
  replace (Z.max (Z.pos (digits2_pos p) + 0 - 53) (-1074))
    with (Z.pos (digits2_pos p) - 53) by lia.
  unfold shl_align.
  destruct (Z.pos (digits2_pos p) - 53 - 0) as [ | d | d] eqn:Hsub; try lia.
  - exists p, 0. split.
    + replace (Z.pos (digits2_pos p) - 53) with 0 by lia.
      apply binary_round_aux_exact; lia.
    + unfold represents. simpl. lia.
  - exists (Pos.iter xO p d), (Z.pos (digits2_pos p) - 53).
    assert (Hdigits : Z.pos (digits2_pos (Pos.iter xO p d)) = 53).
    { rewrite iter_xO_digits. lia. }
    split.
    + apply binary_round_aux_exact; [exact Hdigits | lia].
    + unfold represents. split; [exact Hdigits | split; [lia | ]].
      rewrite iter_xO_value. f_equal. f_equal. lia.
Qed.

Lemma represents_valid (s : bool) (m : positive) (e : Z) (p : positive) :
  represents m e p -> valid_binary (S754_finite s m e) = true.
Proof.
  intros (Hd & He & _). simpl. unfold bounded, canonical_mantissa.
  rewrite Hd, fexp_binary64.
  apply andb_true_intro. split; [apply Z.eqb_eq | apply Z.leb_le].
  - lia.
  - change (emax - prec) with 971. lia.
Qed.

Lemma represents_trunc (s : bool) (m : positive) (e : Z) (p : positive) :
  represents m e p -> SFtrunc (S754_finite s m e) = cond_Zopp s (Z.pos p).
Proof.
  intros (_ & He & Hm). simpl. f_equal.
  rewrite Z.shiftl_div_pow2 by lia. rewrite Hm.
  apply Z.div_mul. apply Z.pow_nonzero; lia.
Qed.

Lemma SFeqb_finite_refl (s : bool) (m : positive) (e : Z) :
  SFeqb (S754_finite s m e) (S754_finite s m e) = true.
Proof.
  unfold SFeqb. simpl. rewrite Z.compare_refl.
  change (Pos.compare_cont Eq m m) with (Pos.compare m m).
  rewrite Pos.compare_refl. now destruct s.
Qed.

Lemma represents_in_range (m : positive) (e : Z) (p : positive) :
  represents m e p -> Z.pos p <= 8640000000000000 ->
  SFltb (S754_finite false 8640000000000000 0) (S754_finite false m e) = false.
Proof.
  intros (Hd & He & Hm) Hp. unfold SFltb. simpl.
  destruct e as [ | e | e]; simpl; try reflexivity; [ | lia].
  simpl in Hm. change (Pos.compare_cont Eq 8640000000000000 m)
    with (Pos.compare 8640000000000000 m).
  destruct (Pos.compare_spec 8640000000000000 m) as [ | H | ]; try reflexivity.
  apply Pos2Z.pos_lt_pos in H. lia.
Qed.

(** [TimeClip] of such a number is the number of its integer. *)
Lemma TimeClip_represented (s : bool) (m : positive) (e : Z) (p : positive) :
  represents m e p -> Z.pos p <= 8640000000000000 ->
  TimeClip (SF2Prim (S754_finite s m e)) = Z2float (cond_Zopp s (Z.pos p)).
Proof.
  intros Hrep Hp.
  unfold TimeClip, is_finite, is_nan, is_infinity, ToIntegerOrInfinity.
  rewrite ltb_spec, !eqb_spec, !abs_spec.
  rewrite !Prim2SF_SF2Prim by (eapply represents_valid; eassumption).
  rewrite SFeqb_finite_refl.
  change (Prim2SF infinity) with (S754_infinity false).
  change (Prim2SF 8.64e15) with (S754_finite false 8640000000000000 0).
  simpl SFabs.
  rewrite (represents_in_range m e p Hrep Hp).
  rewrite (represents_trunc _ m e p Hrep).
  reflexivity.
Qed.

(** An integral time value in range is left alone. *)
Lemma TimeClip_integer (n : Z) :
  Z.abs n <= 8640000000000000 -> TimeClip (Z2float n) = Z2float n.
Proof.
  intros Hn. destruct n as [ | p | p]; [reflexivity | | ].
  - assert (Hp : Z.pos p < 2 ^ 53)
      by (change (2 ^ 53) with 9007199254740992; lia).
    destruct (binary_round_integer false p Hp) as (m & e & Hround & Hrep).
    unfold Z2float at 1. unfold binary_normalize. rewrite Hround.
    apply (TimeClip_represented false m e p Hrep). lia.
  - assert (Hp : Z.pos p < 2 ^ 53)
      by (change (2 ^ 53) with 9007199254740992; lia).
    destruct (binary_round_integer true p Hp) as (m & e & Hround & Hrep).
    unfold Z2float at 1. unfold binary_normalize. rewrite Hround.
    apply (TimeClip_represented true m e p Hrep). lia.
Qed.

(** The truncation of a number that passes the range check is in range. *)
Lemma trunc_in_range (s : spec_float) :
  valid_binary s = true ->
  SFltb (S754_finite false 8640000000000000 0) (SFabs s) = false ->
  Z.abs (SFtrunc s) <= 8640000000000000.
Proof.
  destruct s as [sx | sx | | sx m e]; simpl; try lia.
  intros Hvalid Hcmp.
  assert (Hm : Z.abs (cond_Zopp sx (Z.shiftl (Z.pos m) e)) = Z.shiftl (Z.pos m) e).
  { assert (0 <= Z.shiftl (Z.pos m) e) by (apply Z.shiftl_nonneg; lia).
    destruct sx; simpl; lia. }
  rewrite Hm. clear Hm.
  unfold SFltb in Hcmp. simpl in Hcmp.
  destruct e as [ | e | e]; simpl in Hcmp.
  - simpl. change (Pos.compare_cont Eq 8640000000000000 m)
      with (Pos.compare 8640000000000000 m) in Hcmp.
    destruct (Pos.compare_spec 8640000000000000 m) as [<- | H | H].
    + lia.
    + discriminate.
    + apply Pos2Z.pos_lt_pos in H. lia.
  - discriminate.
  - unfold bounded, canonical_mantissa in Hvalid.
    apply andb_prop in Hvalid. destruct Hvalid as [Hcanon _].
    apply Z.eqb_eq in Hcanon. rewrite fexp_binary64 in Hcanon.
    assert (Hd : Z.pos (digits2_pos m) <= 53) by lia.
    pose proof (digits2_pos_gt m) as Hgt.
    assert (2 ^ Z.pos (digits2_pos m) <= 2 ^ 53)
      by (apply Z.pow_le_mono_r; lia).
    rewrite Z.shiftl_div_pow2 by lia.
    change (2 ^ 53) with 9007199254740992 in *.
    assert (Z.pos m / 2 ^ (- Z.neg e) <= Z.pos m / 2).
    { apply Z.div_le_compat_l; [lia | ]. split; [lia | ].
      change 2 with (2 ^ 1) at 1. apply Z.pow_le_mono_r; lia. }
    assert (Z.pos m / 2 < 4503599627370496)
      by (apply Z.div_lt_upper_bound; lia).
    lia.
Qed.

Lemma TimeClip_nan : TimeClip nan = nan.
Proof. reflexivity. Qed.

(** [TimeClip] is idempotent: a time value is its own time value. *)
Lemma TimeClip_idempotent (x : float) : TimeClip (TimeClip x) = TimeClip x.
Proof.
  unfold TimeClip at 2 3.
  destruct (negb (is_finite x)); [apply TimeClip_nan | ].
  destruct (8.64e15 <? abs x)%float eqn:Hcmp; [apply TimeClip_nan | ].
  apply TimeClip_integer. unfold ToIntegerOrInfinity.
  apply trunc_in_range; [apply Prim2SF_valid | ].
  rewrite ltb_spec, abs_spec in Hcmp. exact Hcmp.
Qed.

(** ** The shrink schedule *)

Lemma step_after_shift (k : Z) (n : nat) :
  step_after (Z.max (div2 k) 1) n = step_after k (S n).
Proof.
  induction n as [ | n IH]; [reflexivity | ].
  simpl in *. now rewrite IH.
Qed.

Lemma magnitude_after_shift (j k : Z) (n : nat) :
  magnitude_after (j + Z.max (div2 k) 1) (Z.max (div2 k) 1) n
  = magnitude_after j k (S n).
Proof.
  induction n as [ | n IH]; [reflexivity | ].
  change (magnitude_after (j + Z.max (div2 k) 1) (Z.max (div2 k) 1) (S n))
    with (magnitude_after (j + Z.max (div2 k) 1) (Z.max (div2 k) 1) n
          + step_after (Z.max (div2 k) 1) (S n)).
  rewrite IH, step_after_shift. reflexivity.
Qed.

Lemma step_after_pos (k : Z) (n : nat) : 1 <= step_after k (S n).
Proof. simpl. lia. Qed.

Lemma magnitude_after_ge (j k : Z) (n : nat) : j <= magnitude_after j k n.
Proof.
  induction n as [ | n IH]; [simpl; lia | ].
  change (magnitude_after j k (S n))
    with (magnitude_after j k n + step_after k (S n)).
  pose proof (step_after_pos k n). lia.
Qed.

Lemma magnitudes_shift (j k : Z) (n : nat) :
  List.map (magnitude_after j k) (seq 0 (S n))
  = j :: List.map (magnitude_after (j + Z.max (div2 k) 1) (Z.max (div2 k) 1))
                  (seq 0 n).
Proof.
  simpl. f_equal. rewrite <- seq_shift, map_map.
  apply map_ext. intros m. symmetry. apply magnitude_after_shift.
Qed.

(** The loop of the integer shrinker runs the schedule from its [j] and
    [k] until the magnitude reaches [i], pushing each magnitude with both
    signs. *)
Lemma integer_shrink_loop_schedule (i j k : Z) (arr : list Z) :
  exists n : nat,
    primitive.integer_shrink_loop i j k arr
    = arr ++ both_signs (List.map (magnitude_after j k) (seq 0 n)) /\
    (forall m, (m < n)%nat -> magnitude_after j k m < i) /\
    i <= magnitude_after j k n.
Proof.
  funelim (primitive.integer_shrink_loop i j k arr).
  - destruct H as (n & Hrun & Hlt & Hge).
    exists (S n). rewrite magnitudes_shift. split; [ | split].
    + rewrite Hrun, <- app_assoc. reflexivity.
    + intros [ | m] Hm; [simpl; lia | ].
      rewrite <- magnitude_after_shift. apply Hlt. lia.
    + now rewrite <- magnitude_after_shift.
  - exists O. simpl. rewrite app_nil_r. repeat split; [ | lia].
    intros m Hm. lia.
Qed.

Lemma in_both_signs (c : Z) (l : list Z) :
  In c (both_signs l) -> exists j, In j l /\ (c = j \/ c = - j).
Proof.
  unfold both_signs. rewrite in_flat_map. intros (j & Hj & Hc).
  exists j. split; [assumption | ].
  simpl in Hc. destruct Hc as [Hc | [Hc | []]]; auto.
Qed.

Lemma in_magnitudes (j a : Z) (n : nat) :
  In j (magnitudes a n) -> exists m, (m < n)%nat /\ j = magnitude a m.
Proof.
  unfold magnitudes. rewrite in_map_iff. intros (m & Hm & Hin).
  apply in_seq in Hin. exists m. split; [lia | now symmetry].
Qed.

Lemma magnitude_nonneg (a : Z) (n : nat) : 0 <= a -> 0 <= magnitude a n.
Proof.
  intros Ha. unfold magnitude.
  pose proof (magnitude_after_ge (a / 2) (Z.max (a / 2) 1) n).
  pose proof (Z.div_pos a 2 Ha). lia.
Qed.

(** ** The loops on binary64 numbers *)

(** Up to [2^53] nothing is rounded. *)
Lemma round64_exact (n : Z) : safe n -> round64 n = n.
Proof.
  unfold safe. change (2 ^ 53) with 9007199254740992. intros Hn.
  assert (Hpos : forall (s : bool) (p : positive),
            Z.pos p <= 9007199254740992 ->
            SFtrunc (binary_round prec emax s p 0) = cond_Zopp s (Z.pos p)).
  { intros s p Hp.
    destruct (Z.eq_dec (Z.pos p) 9007199254740992) as [Heq | Hne].
    - injection Heq as ->. now destruct s.
    - destruct (binary_round_integer s p) as (m & e & -> & Hrep).
      + change (2 ^ 53) with 9007199254740992. lia.
      + apply (represents_trunc s m e p Hrep). }
  destruct n as [ | p | p]; [reflexivity | | ].
  - apply (Hpos false p). lia.
  - apply (Hpos true p). lia.
Qed.

(** Within the safe integers the loop with rounding, given enough fuel,
    returns what the recursion on integers returns.  The loop keeps
    [j + k <= i]: the step is at most the distance left, or 1. *)
Lemma integer_shrink_loop64_exact (i j k : Z) (arr : list Z) :
  i <= 2 ^ 53 -> 0 <= j -> 1 <= k -> 0 <= i - j ->
  (k = 1 \/ k <= i - j) ->
  exists fuel, forall f, (fuel <= f)%nat ->
    shrink_loop64 (fun j => [j; - j]) f i j k arr
    = Some (primitive.integer_shrink_loop i j k arr).
Proof.
  funelim (primitive.integer_shrink_loop i j k arr);
    intros Hi Hj Hk Hr Hinv.
  - assert (Hhalf : 2 <= k -> 1 <= k / 2 /\ k / 2 <= k - k / 2).
    { intros H2. pose proof (Z.div_mod k 2).
      pose proof (Z.mod_pos_bound k 2). lia. }
    assert (Hone : k = 1 -> k / 2 = 0) by (intros ->; reflexivity).
    assert (Hnext : 1 <= Z.max (div2 k) 1 <= i - j /\
              (Z.max (div2 k) 1 = 1 \/
               Z.max (div2 k) 1 <= i - (j + Z.max (div2 k) 1))).
    { unfold div2. destruct (Z.eq_dec k 1) as [H1 | H1].
      - rewrite (Hone H1). lia.
      - lia. }
    destruct H as (fuel & Hfuel); try lia.
    exists (S fuel). intros [ | f] Hf; [lia | ].
    simpl. destruct (Z.ltb_spec j i) as [_ | Hge]; [ | lia].
    rewrite round64_exact by (unfold safe; lia).
    apply Hfuel. lia.
  - exists 1%nat. intros [ | f] Hf; [lia | ].
    simpl. destruct (Z.ltb_spec j i) as [Hlt | _]; [lia | reflexivity].
Qed.

Lemma nat_shrink_loop64_exact (i j k : Z) (arr : list Z) :
  i <= 2 ^ 53 -> 0 <= j -> 1 <= k -> 0 <= i - j ->
  (k = 1 \/ k <= i - j) ->
  exists fuel, forall f, (fuel <= f)%nat ->
    shrink_loop64 (fun j => [j]) f i j k arr
    = Some (primitive.nat_shrink_loop i j k arr).
Proof.
  funelim (primitive.nat_shrink_loop i j k arr);
    intros Hi Hj Hk Hr Hinv.
  - assert (Hhalf : 2 <= k -> 1 <= k / 2 /\ k / 2 <= k - k / 2).
    { intros H2. pose proof (Z.div_mod k 2).
      pose proof (Z.mod_pos_bound k 2). lia. }
    assert (Hone : k = 1 -> k / 2 = 0) by (intros ->; reflexivity).
    assert (Hnext : 1 <= Z.max (div2 k) 1 <= i - j /\
              (Z.max (div2 k) 1 = 1 \/
               Z.max (div2 k) 1 <= i - (j + Z.max (div2 k) 1))).
    { unfold div2. destruct (Z.eq_dec k 1) as [H1 | H1].
      - rewrite (Hone H1). lia.
      - lia. }
    destruct H as (fuel & Hfuel); try lia.
    exists (S fuel). intros [ | f] Hf; [lia | ].
    simpl. destruct (Z.ltb_spec j i) as [_ | Hge]; [ | lia].
    rewrite round64_exact by (unfold safe; lia).
    apply Hfuel. lia.
  - exists 1%nat. intros [ | f] Hf; [lia | ].
    simpl. destruct (Z.ltb_spec j i) as [Hlt | _]; [lia | reflexivity].
Qed.

Lemma shrink_start (a : Z) :
  0 <= a ->
  0 <= div2 a /\ 1 <= Z.max (div2 a) 1 /\ 0 <= a - div2 a /\
  (Z.max (div2 a) 1 = 1 \/ Z.max (div2 a) 1 <= a - div2 a).
Proof.
  intros Ha. unfold div2.
  pose proof (Z.div_mod a 2). pose proof (Z.mod_pos_bound a 2). lia.
Qed.

(** On a safe integer the integer shrinker returns, and returns the
    list of the recursion on integers. *)
Lemma integer_shrink64_exact (i : Z) :
  safe i ->
  exists fuel, forall f, (fuel <= f)%nat ->
    integer_shrink64 f i = Some (primitive.integer_shrink i).
Proof.
  unfold safe, integer_shrink64, primitive.integer_shrink. intros Hi.
  destruct (Z.eqb_spec (Z.abs i) 0) as [_ | Hne].
  - exists O. reflexivity.
  - destruct (shrink_start (Z.abs i)) as (H1 & H2 & H3 & H4); [lia | ].
    cbv zeta. apply integer_shrink_loop64_exact; assumption.
Qed.

Lemma nat_shrink64_exact (n : Z) :
  0 <= n <= 2 ^ 53 ->
  exists fuel, forall f, (fuel <= f)%nat ->
    nat_shrink64 f n = Some (primitive.nat_shrink n).
Proof.
  unfold nat_shrink64, primitive.nat_shrink. intros Hn.
  destruct (shrink_start n) as (H1 & H2 & H3 & H4); [lia | ].
  cbv zeta. apply nat_shrink_loop64_exact; try assumption; lia.
Qed.

(** A loop that stays below [i] for [n] turns and cannot return from
    where it stands then, cannot return. *)
Lemma shrink_loop64_after (push : Z -> list Z) (i : Z) (n : nat) :
  forall j k,
    below64 n i j k = true ->
    (forall fuel arr,
       shrink_loop64 push fuel i (fst (turns64 n j k)) (snd (turns64 n j k))
         arr = None) ->
    forall fuel arr, shrink_loop64 push fuel i j k arr = None.
Proof.
  induction n as [ | n IH]; intros j k Hbelow Hstuck fuel arr.
  - apply Hstuck.
  - simpl in Hbelow. apply andb_prop in Hbelow. destruct Hbelow as [Hj Hrest].
    destruct fuel as [ | fuel]; [reflexivity | ].
    simpl. rewrite Hj. apply (IH _ _ Hrest). exact Hstuck.
Qed.

(** Where a turn changes neither [j] nor [k] and [j < i], the loop runs
    for ever. *)
Lemma shrink_loop64_stuck (push : Z -> list Z) (i j k : Z) :
  j < i -> Z.max (div2 k) 1 = k -> round64 (j + k) = j ->
  forall fuel arr, shrink_loop64 push fuel i j k arr = None.
Proof.
  intros Hlt Hk Hj fuel. induction fuel as [ | fuel IH]; intros arr.
  - reflexivity.
  - simpl. apply Z.ltb_lt in Hlt. rewrite Hlt, Hk, Hj. apply IH.
Qed.

(** At [2^53 + 2] both loops reach [j = 2^53] with [k = 1] after 52
    turns, and [2^53 + 1] rounds back to [2^53]. *)
Lemma shrink_loop64_diverges (push : Z -> list Z) (fuel : nat) (arr : list Z) :
  shrink_loop64 push fuel 9007199254740994
    4503599627370497 4503599627370497 arr = None.
Proof.
  revert fuel arr.
  apply (shrink_loop64_after push 9007199254740994 52).
  - vm_compute. reflexivity.
  - replace (turns64 52 4503599627370497 4503599627370497)
      with (9007199254740992, 1) by (vm_compute; reflexivity).
    apply shrink_loop64_stuck; vm_compute; reflexivity.
Qed.

(** ** The integer shrinker *)

Lemma integer_shrink_schedule (i : Z) :
  Z.abs i <> 0 ->
  exists n : nat,
    primitive.integer_shrink i = 0 :: both_signs (magnitudes (Z.abs i) n) /\
    (forall m, (m < n)%nat -> magnitude (Z.abs i) m < Z.abs i) /\
    Z.abs i <= magnitude (Z.abs i) n.
Proof.
  intros Ha. unfold primitive.integer_shrink.
  destruct (Z.eqb_spec (Z.abs i) 0) as [H0 | _]; [contradiction | ].
  destruct (integer_shrink_loop_schedule
              (Z.abs i) (div2 (Z.abs i)) (Z.max (div2 (Z.abs i)) 1) [0])
    as (n & Hrun & Hlt & Hge).
  exists n. cbv zeta. rewrite Hrun. repeat split; assumption.
Qed.

Lemma integer_shrink_smaller (i c : Z) :
  In c (primitive.integer_shrink i) -> Z.abs c < Z.abs i.
Proof.
  destruct (Z.eq_dec (Z.abs i) 0) as [H0 | Hne].
  - unfold primitive.integer_shrink. rewrite H0. simpl. contradiction.
  - destruct (integer_shrink_schedule i Hne) as (n & Hrun & Hlt & _).
    rewrite Hrun. intros [Hc | Hc]; [lia | ].
    apply in_both_signs in Hc. destruct Hc as (j & Hj & Hc).
    apply in_magnitudes in Hj. destruct Hj as (m & Hm & ->).
    pose proof (Hlt m Hm).
    pose proof (magnitude_nonneg (Z.abs i) m (Z.abs_nonneg i)).
    lia.
Qed.

(** C2, as amended: for every integer [i] of magnitude at most [2^53]
    the integer shrinker returns, and returns a list whose candidates are
    no larger in magnitude than the failing value and never the value
    itself; it is empty at magnitude 0, and otherwise it is [0] followed
    by the pairs [+j], [-j] of the magnitudes [j] of the halving
    schedule, which starts at [|i| / 2] and is run until [j] reaches
    [|i|]. *)
Theorem integer_shrink_candidates (i : Z) :
  safe i ->
  let candidates := arb_shrink (primitive.integer Args0) i in
  (exists fuel, forall f, (fuel <= f)%nat ->
     integer_shrink64 f i = Some candidates) /\
  (forall maxsize,
     arb_shrink (primitive.integer (Args1 maxsize)) i = candidates) /\
  (forall c, In c candidates -> Z.abs c <= Z.abs i) /\
  ~ In i candidates /\
  (Z.abs i = 0 -> candidates = []) /\
  (Z.abs i <> 0 ->
   exists n : nat,
     candidates = 0 :: both_signs (magnitudes (Z.abs i) n) /\
     (forall m, (m < n)%nat -> magnitude (Z.abs i) m < Z.abs i) /\
     Z.abs i <= magnitude (Z.abs i) n).
Proof.
  intros Hsafe.
  change (arb_shrink (primitive.integer Args0) i)
    with (primitive.integer_shrink i).
  cbv zeta.
  split; [exact (integer_shrink64_exact i Hsafe) | ].
  split; [reflexivity | split; [ | split; [ | split]]].
  - intros c Hc. apply integer_shrink_smaller in Hc. lia.
  - intros Hi. apply integer_shrink_smaller in Hi. lia.
  - intros H0. unfold primitive.integer_shrink. now rewrite H0.
  - apply integer_shrink_schedule.
Qed.

Lemma integer_shrink_candidates_witness :
  Z.abs 3 <= Z.abs (-4) /\
  (exists fuel, integer_shrink64 fuel (-4) = Some [0; 2; -2; 3; -3]) /\
  exists n : nat,
    primitive.integer_shrink (-4) = 0 :: both_signs (magnitudes 4 n).
Proof.
  assert (Hsafe : safe (-4)) by (unfold safe; simpl; lia).
  pose proof (integer_shrink_candidates (-4) Hsafe)
    as (Hruns & _ & Hle & _ & _ & Hsched).
  split; [ | split].
  - apply (Hle 3). vm_compute. tauto.
  - destruct Hruns as (fuel & Hfuel). exists fuel.
    apply (Hfuel fuel (Nat.le_refl fuel)).
  - destruct Hsched as (n & Hrun & _); [discriminate | ].
    exists n. exact Hrun.
Defined.

(** C2, as stated for every integer, fails beyond [2^53]: at
    [i = 2^53 + 2], a number binary64 holds, [j] reaches [2^53] with
    [k = 1], [j + 1] rounds back to [2^53], and the loop never returns:
    the shrinker yields no sequence at all. *)
Lemma integer_shrink_never_returns :
  round64 9007199254740994 = 9007199254740994 /\
  forall fuel, integer_shrink64 fuel 9007199254740994 = None.
Proof.
  split; [vm_compute; reflexivity | ].
  intros fuel. apply shrink_loop64_diverges.
Qed.

Example integer_shrink_minus_4 :
  primitive.integer_shrink (-4) = [0; 2; -2; 3; -3].
Proof. reflexivity. Qed.

Example integer_shrink_100 :
  primitive.integer_shrink 100
  = [0; 50; -50; 75; -75; 87; -87; 93; -93; 96; -96; 97; -97; 98; -98;
     99; -99].
Proof. reflexivity. Qed.

(** ** The natural-number shrinker *)

(** The loop of the nat shrinker runs the same schedule and pushes each
    magnitude once. *)
Lemma nat_shrink_loop_schedule (i j k : Z) (arr : list Z) :
  exists n : nat,
    primitive.nat_shrink_loop i j k arr
    = arr ++ List.map (magnitude_after j k) (seq 0 n) /\
    (forall m, (m < n)%nat -> magnitude_after j k m < i) /\
    i <= magnitude_after j k n.
Proof.
  funelim (primitive.nat_shrink_loop i j k arr).
  - destruct H as (n & Hrun & Hlt & Hge).
    exists (S n). rewrite magnitudes_shift. split; [ | split].
    + rewrite Hrun, <- app_assoc. reflexivity.
    + intros [ | m] Hm; [simpl; lia | ].
      rewrite <- magnitude_after_shift. apply Hlt. lia.
    + now rewrite <- magnitude_after_shift.
  - exists O. simpl. rewrite app_nil_r. repeat split; [ | lia].
    intros m Hm. lia.
Qed.

Lemma nat_shrink_schedule (i : Z) :
  exists n : nat,
    primitive.nat_shrink i = magnitudes i n /\
    (forall m, (m < n)%nat -> magnitude i m < i) /\
    i <= magnitude i n.
Proof.
  destruct (nat_shrink_loop_schedule i (div2 i) (Z.max (div2 i) 1) [])
    as (n & Hrun & Hlt & Hge).
  exists n. unfold primitive.nat_shrink. cbv zeta. rewrite Hrun.
  repeat split; assumption.
Qed.

(** C3, as amended: for a natural number [n] up to [2^53] the nat
    shrinker returns; its candidates are non-negative; one of them is
    strictly below [n] when [n > 0]; there is none when [n = 0]; and the
    list is the bare run of magnitudes of the halving schedule, with no
    negated entry.  The shrinker does not depend on [maxsize]. *)
Theorem nat_shrink_candidates (maxsize : option Z) (n : Z) :
  0 <= n <= 2 ^ 53 ->
  let candidates := arb_shrink (primitive.nat maxsize) n in
  (exists fuel, forall f, (fuel <= f)%nat ->
     nat_shrink64 f n = Some candidates) /\
  (forall c, In c candidates -> 0 <= c) /\
  (0 < n -> exists c, In c candidates /\ c < n) /\
  (n = 0 -> candidates = []) /\
  (exists count : nat,
     candidates = magnitudes n count /\
     forall c, In c candidates -> 0 <= c < n).
Proof.
  intros Hn.
  change (arb_shrink (primitive.nat maxsize) n) with (primitive.nat_shrink n).
  cbv zeta.
  split; [exact (nat_shrink64_exact n Hn) | ].
  destruct (nat_shrink_schedule n) as (count & Hrun & Hlt & Hge).
  assert (Hin : forall c, In c (primitive.nat_shrink n) -> 0 <= c < n).
  { intros c Hc. rewrite Hrun in Hc. apply in_magnitudes in Hc.
    destruct Hc as (m & Hm & ->).
    pose proof (Hlt m Hm).
    pose proof (magnitude_nonneg n m (proj1 Hn)). lia. }
  split; [ | split; [ | split]].
  - intros c Hc. apply Hin in Hc. lia.
  - intros Hpos. exists (n / 2). split.
    + rewrite Hrun. destruct count as [ | count].
      * unfold magnitude in Hge. simpl in Hge.
        pose proof (Z.div_lt n 2 Hpos). lia.
      * left. reflexivity.
    + apply Z.div_lt; lia.
  - intros ->. reflexivity.
  - exists count. split; assumption.
Qed.

Lemma nat_shrink_candidates_witness :
  0 <= 5 /\
  (exists fuel, nat_shrink64 fuel 10 = Some [5; 7; 8; 9]) /\
  exists c, In c (primitive.nat_shrink 10) /\ c < 10.
Proof.
  assert (Hn : 0 <= 10 <= 2 ^ 53) by (split; [lia | discriminate]).
  pose proof (nat_shrink_candidates None 10 Hn)
    as (Hruns & Hnonneg & Hbelow & _).
  split; [ | split].
  - apply (Hnonneg 5). vm_compute. tauto.
  - destruct Hruns as (fuel & Hfuel). exists fuel.
    apply (Hfuel fuel (Nat.le_refl fuel)).
  - apply Hbelow. lia.
Defined.

(** C3, as stated for every natural number, fails beyond [2^53]: at
    [n = 2^53 + 2] the loop of the nat shrinker never returns, so there
    is no candidate list. *)
Lemma nat_shrink_never_returns :
  round64 9007199254740994 = 9007199254740994 /\
  forall fuel, nat_shrink64 fuel 9007199254740994 = None.
Proof.
  split; [vm_compute; reflexivity | ].
  intros fuel. apply shrink_loop64_diverges.
Qed.

Example nat_shrink_10 : primitive.nat_shrink 10 = [5; 7; 8; 9].
Proof. reflexivity. Qed.

Example nat_shrink_1 : primitive.nat_shrink 1 = [0].
Proof. reflexivity. Qed.

(** ** The two-argument rescale *)

Lemma upper_source_in_bounds : in_bounds upper_source.
Proof. intros lo hi H. simpl. lia. Qed.

Lemma lower_source_in_bounds : in_bounds lower_source.
Proof. intros lo hi H. simpl. lia. Qed.

Lemma source_of_in_bounds (v : Z) : in_bounds (source_of v).
Proof.
  intros lo hi H. simpl.
  destruct (Z.leb_spec lo v), (Z.leb_spec v hi); simpl; lia.
Qed.

Lemma source_of_hit (v lo hi : Z) :
  lo <= v <= hi -> random (source_of v) lo hi = v.
Proof.
  intros [H1 H2]. simpl.
  apply Z.leb_le in H1. apply Z.leb_le in H2. now rewrite H1, H2.
Qed.

(** What the generator of [integer(minsize, maxsize)] computes. *)
Lemma integer_rescale_generator (rnd : RandomSource) (minsize maxsize size : Z) :
  arb_generator (primitive.integer (Args2 minsize maxsize)) rnd size
  = Z.abs (random rnd (- or_size (Some (maxsize - minsize)) size)
                      (or_size (Some (maxsize - minsize)) size))
    + minsize.
Proof. reflexivity. Qed.




Lemma to_from_exact (minsize u : Z) :
  minsize <= u -> primitive.to minsize (primitive.from minsize u) = u.
Proof. intros Hu. unfold primitive.to, primitive.from. simpl. lia. Qed.

(** C10, as amended: for [integer(minsize, maxsize)], on integers that
    binary64 holds exactly (endpoints, values and spans of magnitude at
    most [2^53]), [to] collapses [x] and [-x], yet [to (from u) = u] for
    every [u >= minsize]; every value generated from draws within the
    bounds, and every candidate the shrinker proposes for such a value,
    is such a [u]. *)
Theorem rescale_round_trip (minsize : Z) :
  safe minsize ->
  (forall x, primitive.to minsize x = primitive.to minsize (- x)) /\
  (forall u, safe u -> minsize <= u -> u - minsize <= 2 ^ 53 ->
     primitive.to minsize (primitive.from minsize u) = u) /\
  (forall rnd maxsize size,
     in_bounds rnd -> safe maxsize -> minsize < maxsize ->
     maxsize - minsize <= 2 ^ 53 ->
     let u := arb_generator (primitive.integer (Args2 minsize maxsize))
                rnd size in
     minsize <= u <= maxsize /\
     primitive.to minsize (primitive.from minsize u) = u) /\
  (forall maxsize v c,
     safe v -> minsize <= v -> v - minsize <= 2 ^ 53 ->
     In c (arb_shrink (primitive.integer (Args2 minsize maxsize)) v) ->
     minsize <= c < v /\
     primitive.to minsize (primitive.from minsize c) = c).
Proof.
  intros Hmin.
  split; [ | split; [ | split]].
  - intros x. unfold primitive.to. simpl. lia.
  - intros u _ Hu _. apply to_from_exact. exact Hu.
  - intros rnd maxsize size Hrnd _ Hlt _ u. subst u.
    rewrite integer_rescale_generator.
    assert (Hsize : or_size (Some (maxsize - minsize)) size
                    = maxsize - minsize).
    { simpl. destruct (Z.eqb_spec (maxsize - minsize) 0); [lia | reflexivity]. }
    rewrite Hsize.
    pose proof (Hrnd (- (maxsize - minsize)) (maxsize - minsize)).
    split; [lia | apply to_from_exact; lia].
  - intros maxsize v c _ Hv _ Hc.
    change (arb_shrink (primitive.integer (Args2 minsize maxsize)) v)
      with (List.map (primitive.to minsize)
              (primitive.integer_shrink (primitive.from minsize v))) in Hc.
    apply in_map_iff in Hc. destruct Hc as (y & <- & Hy).
    apply integer_shrink_smaller in Hy.
    unfold primitive.from in Hy. simpl in Hy.
    assert (Hc : minsize <= primitive.to minsize y < v).
    { unfold primitive.to. simpl. lia. }
    split; [exact Hc | apply to_from_exact; lia].
Qed.

Lemma rescale_round_trip_witness :
  primitive.to 10 (primitive.from 10 17) = 17 /\
  primitive.to 10 3 = primitive.to 10 (-3) /\
  10 <= 12 < 14 /\
  10 <= arb_generator (primitive.integer (Args2 10 20)) upper_source 3 <= 20.
Proof.
  assert (H10 : safe 10) by (unfold safe; simpl; lia).
  assert (H14 : safe 14) by (unfold safe; simpl; lia).
  assert (H17 : safe 17) by (unfold safe; simpl; lia).
  assert (H20 : safe 20) by (unfold safe; simpl; lia).
  assert (Hspan : 20 - 10 <= 2 ^ 53) by discriminate.
  pose proof (rescale_round_trip 10 H10) as (Hcollapse & Hrt & Hgen & Hshrink).
  split; [ | split; [ | split]].
  - apply Hrt; [exact H17 | lia | discriminate].
  - apply Hcollapse.
  - apply (Hshrink 20 14 12); [exact H14 | lia | discriminate | ].
    vm_compute. tauto.
  - apply (Hgen upper_source 20 3 upper_source_in_bounds H20); [lia | exact Hspan].
Defined.

(** C10, as stated for the rescale of [numeric], fails for [number]:
    [number(-0.86, 2)] asks for a draw between [-2.86] and [2.86]; the
    draw [1.86] generates [u = 1], and [to (from 1)] is
    [0.99999999999999989]. *)
Lemma number_rescale_round_trip_fails :
  let minsize := (-0.86)%float in
  let span := (2 - minsize)%float in
  let rnd := number_source_of 1.86%float in
  random_number rnd (- span)%float span = 1.86%float /\
  ((- span <=? 1.86) && (1.86 <=? span))%float = true /\
  arb_generator (primitive.number (Args2 minsize 2%float)) rnd 1%float
  = 1%float /\
  primitive.to minsize (primitive.from minsize 1%float)
  = 0.99999999999999989%float /\
  (primitive.to minsize (primitive.from minsize 1%float) =? 1)%float = false.
Proof. vm_compute. repeat split. Qed.

Example integer_rescale_shrink_14 :
  arb_shrink (primitive.integer (Args2 10 20)) 14 = [10; 12; 12; 13; 13].
Proof. reflexivity. Qed.

(** ** A maximum size of zero *)

Section FloatFalsy.
Local Open Scope float_scope.



End FloatFalsy.



Example nat_zero_maxsize :
  arb_generator (primitive.nat (Some 0)) upper_source 9 = 9 /\
  arb_generator (primitive.nat (Some 4)) upper_source 9 = 4.
Proof. split; reflexivity. Qed.

(** ** [elements] *)

(** Where [indexOf] lands: nowhere, or on the first strictly equal
    entry. *)
Lemma indexOf_from_cases (args : list value) (x : value) (k : Z) :
  (indexOf_from args x k = -1 /\
   forall y, In y args -> strict_eq y x = false) \/
  (exists before y after,
     args = before ++ y :: after /\
     strict_eq y x = true /\
     (forall z, In z before -> strict_eq z x = false) /\
     indexOf_from args x k = k + Z.of_nat (List.length before)).
Proof.
  revert k. induction args as [ | a rest IH]; intros k; simpl.
  - left. split; [reflexivity | intros y []].
  - destruct (strict_eq a x) eqn:Ha.
    + right. exists [], a, rest. simpl.
      repeat split; auto; try lia; intros z [].
    + destruct (IH (k + 1)) as [[Hidx Hall] | (before & y & after & H)].
      * left. split; [assumption | ].
        intros y [<- | Hy]; auto.
      * destruct H as (-> & Hy & Hbefore & Hidx).
        right. exists (a :: before), y, after. simpl.
        repeat split; auto.
        -- intros z [<- | Hz]; auto.
        -- rewrite Hidx. lia.
Qed.

Lemma firstn_before {A} (before : list A) (y : A) (after : list A) :
  firstn (List.length before) (before ++ y :: after) = before.
Proof.
  rewrite firstn_app, Nat.sub_diag, firstn_all. simpl. apply app_nil_r.
Qed.

(** C6: the shrinker of [elements(args)] proposes nothing for a value
    found at index 0 or not found at all, and otherwise exactly the
    entries before the first occurrence of the value, in their order. *)
Theorem elements_shrink_candidates
  (S : Type) (args : list value) (arb : arbitrary S value) (v : value) :
  primitive.elements args = Return arb ->
  args <> [] /\
  (indexOf args v = 0 -> arb_shrink arb v = []) /\
  ((forall y, In y args -> strict_eq y v = false) -> arb_shrink arb v = []) /\
  (forall before y after,
     args = before ++ y :: after ->
     strict_eq y v = true ->
     (forall z, In z before -> strict_eq z v = false) ->
     indexOf args v = Z.of_nat (List.length before) /\
     arb_shrink arb v = before) /\
  ((forall y, In y args -> strict_eq y v = false) \/
   (exists before y after,
      args = before ++ y :: after /\
      strict_eq y v = true /\
      (forall z, In z before -> strict_eq z v = false))).
Proof.
  intros Hreturn.
  assert (Hargs : args <> []).
  { intros ->. discriminate Hreturn. }
  assert (Hshrink : arb_shrink arb v = primitive.elements_shrink args v).
  { destruct args as [ | a rest]; [contradiction | ].
    injection Hreturn as <-. reflexivity. }
  rewrite Hshrink. unfold primitive.elements_shrink, indexOf.
  split; [assumption | split; [ | split; [ | split]]].
  - intros ->. reflexivity.
  - intros Hall.
    destruct (indexOf_from_cases args v 0)
      as [[-> _] | (before & y & after & -> & Hy & _)]; [reflexivity | ].
    rewrite Hall in Hy by (apply in_or_app; right; left; reflexivity).
    discriminate.
  - intros before y after -> Hy Hbefore.
    assert (Hidx : forall k, indexOf_from (before ++ y :: after) v k
                             = k + Z.of_nat (List.length before)).
    { clear Hreturn Hargs Hshrink.
      induction before as [ | b before IH]; intros k; simpl.
      - rewrite Hy. lia.
      - rewrite (Hbefore b) by (left; reflexivity).
        rewrite IH by (intros z Hz; apply Hbefore; right; exact Hz).
        lia. }
    rewrite Hidx. simpl Z.add. split; [reflexivity | ].
    destruct before as [ | b before]; [reflexivity | ].
    destruct (Z.leb_spec (Z.of_nat (List.length (b :: before))) 0) as [H | _].
    + simpl List.length in H. lia.
    + unfold slice0. rewrite Nat2Z.id. apply firstn_before.
  - destruct (indexOf_from_cases args v 0)
      as [[_ Hall] | (before & y & after & Heq & Hy & Hbefore & _)].
    + left. exact Hall.
    + right. exists before, y, after. repeat split; assumption.
Qed.

Lemma elements_shrink_candidates_witness :
  match primitive.elements (S := Z) [VString "a"; VString "b"; VString "c"] with
  | Return arb =>
      arb_shrink arb (VString "c") = [VString "a"; VString "b"] /\
      arb_shrink arb (VString "a") = [] /\
      arb_shrink arb (VString "z") = []
  | Throw _ => False
  end.
Proof.
  destruct (primitive.elements (S := Z) [VString "a"; VString "b"; VString "c"])
    as [arb | message] eqn:Hreturn; [ | discriminate Hreturn].
  split; [ | split].
  - pose proof (elements_shrink_candidates Z _ arb (VString "c") Hreturn)
      as (_ & _ & _ & Hbefore & _).
    apply (Hbefore [VString "a"; VString "b"] (VString "c") []).
    + reflexivity.
    + reflexivity.
    + intros z [<- | [<- | []]]; reflexivity.
  - pose proof (elements_shrink_candidates Z _ arb (VString "a") Hreturn)
      as (_ & Hfirst & _).
    apply Hfirst. reflexivity.
  - pose proof (elements_shrink_candidates Z _ arb (VString "z") Hreturn)
      as (_ & _ & Habsent & _).
    apply Habsent. intros y [<- | [<- | [<- | []]]]; reflexivity.
Defined.

(** [NaN] is never found by [indexOf], so it has no candidates even
    though it is the last entry of the array of falsy values. *)
Example falsy_shrink :
  primitive.elements_shrink primitive.falsy_values (VNumber nan) = [] /\
  primitive.elements_shrink primitive.falsy_values (VNumber 0)
  = [VBool false; VNull; VUndefined; VString EmptyString].
Proof. split; reflexivity. Qed.

(** C5, as amended: [elements] called with an empty array throws at
    once, with its message and without building an arbitrary; with a
    non-empty array it returns one. *)
Theorem elements_empty_throws :
  (forall S : Type,
     primitive.elements (S := S) []
     = Throw "elements: at least one parameter expected") /\
  (forall (S : Type) (args : list value),
     args <> [] ->
     exists arb, primitive.elements (S := S) args = Return arb).
Proof.
  split; [reflexivity | ].
  intros S [ | a rest] Hne; [contradiction | ].
  eexists. reflexivity.
Qed.

(** C5, as stated, says more: that nothing else in the core can fail.
    A call of the integer shrinker at [-(2^53 + 2)] does not throw, and
    does not return either. *)
Lemma shrink_call_never_returns :
  round64 (-9007199254740994) = -9007199254740994 /\
  forall fuel, integer_shrink64 fuel (-9007199254740994) = None.
Proof.
  split; [vm_compute; reflexivity | ].
  intros fuel. apply shrink_loop64_diverges.
Qed.

Example falsy_returns :
  exists arb, primitive.falsy (S := Z) (fun _ => EmptyString) = Return arb.
Proof. eexists. reflexivity. Qed.

Lemma elements_empty_throws_witness :
  exists arb, primitive.elements (S := Z) primitive.falsy_values = Return arb.
Proof.
  apply (proj2 elements_empty_throws). discriminate.
Defined.

(** ** [datetime] *)

Lemma newDate_getTime (d : Date) :
  TimeClip (getTime d) = getTime d -> newDate (getTime d) = d.
Proof. destruct d as [t]. unfold newDate. simpl. now intros ->. Qed.

(** C7: every date generated by [datetime(from, to)] survives the trip
    through its epoch-millisecond number: [new Date(d.getTime())] is [d].
    The shrinker is the shrinker of [number(from, to)] carried over to
    dates by the same two conversions. *)
Theorem datetime_round_trip
  (rnd : RandomSource) (from to : Date) (size : float) :
  let arb := primitive.datetime (Some (from, to)) in
  let d := arb_generator arb rnd size in
  newDate (getTime d) = d /\
  (forall x,
     arb_shrink arb x
     = List.map newDate
         (arb_shrink (primitive.number (Args2 (getTime from) (getTime to)))
                     (getTime x))).
Proof.
  cbv zeta. split; [ | reflexivity].
  apply newDate_getTime.
  change (getTime (arb_generator (primitive.datetime (Some (from, to)))
                                 rnd size))
    with (TimeClip (arb_generator
                      (primitive.number (Args2 (getTime from) (getTime to)))
                      rnd size)).
  apply TimeClip_idempotent.
Qed.

Example datetime_generated :
  let from := newDate 1000 in
  let to := newDate 5000 in
  arb_generator (primitive.datetime (Some (from, to))) upper_source 7%float
  = newDate 5000 /\
  arb_generator (primitive.datetime (Some (from, to))) lower_source 7%float
  = newDate 5000 /\
  getTime (newDate 1234.5) = 1234%float.
Proof. vm_compute. repeat split. Qed.

(** C8, as amended: the default [datetime] maps the number [x] that the
    default [number] generator draws at the ambient size, a value asked
    of the random source between [-size] and [size], to the date
    [x * 768000000 + 1416499879495]; its shrinker proposes nothing. *)
Theorem default_datetime_formula (rnd : RandomSource) (size : float) :
  primitive.datetimeConst = 1416499879495%float /\
  arb_generator (primitive.datetime None) rnd size
  = newDate (random_number rnd (- size) size * 768000000
             + 1416499879495)%float /\
  arb_generator (primitive.datetime None) rnd size
  = newDate (arb_generator (primitive.number Args0) rnd size * 768000000
             + primitive.datetimeConst)%float /\
  (forall d, arb_shrink (primitive.datetime None) d = []).
Proof. repeat split. Qed.

Lemma float_neq (x y : float) : Prim2SF x <> Prim2SF y -> x <> y.
Proof. intros H ->. now apply H. Qed.

(** C8, as stated, fails: at size 1 a source that answers with the lower
    bound gives a date that is not [1416499879495 + 1 * 768000000], and
    two sources give two dates at the same size. *)
Lemma default_datetime_not_a_function_of_size :
  arb_generator (primitive.datetime None) lower_source 1%float
  <> newDate (1416499879495 + 1 * 768000000)%float /\
  arb_generator (primitive.datetime None) lower_source 1%float
  <> arb_generator (primitive.datetime None) upper_source 1%float.
Proof.
  split; intros H; apply (f_equal getTime) in H; revert H;
    apply float_neq; vm_compute; discriminate.
Qed.

Example default_datetime_dates :
  getTime (arb_generator (primitive.datetime None) lower_source 1%float)
  = 1415731879495%float /\
  getTime (arb_generator (primitive.datetime None) upper_source 1%float)
  = 1417267879495%float.
Proof. split; reflexivity. Qed.

(** * Further properties *)

(** ** Ranges of the integer and nat generators *)

Lemma integer_impl_range (rnd : RandomSource) (maxsize : option Z) (size : Z) :
  in_bounds rnd -> 0 <= or_size maxsize size ->
  Z.abs (arb_generator (primitive.integer_impl maxsize) rnd size)
  <= or_size maxsize size.
Proof.
  intros Hrnd Hs. simpl. unfold generator.bless.
  pose proof (Hrnd (- or_size maxsize size) (or_size maxsize size)). lia.
Qed.

Lemma nat_range (rnd : RandomSource) (maxsize : option Z) (size : Z) :
  in_bounds rnd -> 0 <= or_size maxsize size ->
  0 <= arb_generator (primitive.nat maxsize) rnd size <= or_size maxsize size.
Proof.
  intros Hrnd Hs. simpl. unfold generator.bless.
  apply (Hrnd 0 (or_size maxsize size)). exact Hs.
Qed.

Lemma or_size_positive (maxsize size : Z) :
  0 < maxsize -> or_size (Some maxsize) size = maxsize.
Proof.
  intros H. simpl. destruct (Z.eqb_spec maxsize 0); [lia | reflexivity].
Qed.

(** X1: with a random source that respects its bounds, [integer()] at a
    size [size >= 0] yields a value in [[-size, size]], and
    [integer(maxsize)] with [maxsize > 0] yields a value in
    [[-maxsize, maxsize]] whatever the size; every value of that range
    can come out. *)
Theorem integer_generator_range (rnd : RandomSource) (size : Z) :
  in_bounds rnd ->
  (0 <= size ->
   - size <= arb_generator (primitive.integer Args0) rnd size <= size) /\
  (forall maxsize, 0 < maxsize ->
   - maxsize <= arb_generator (primitive.integer (Args1 maxsize)) rnd size
             <= maxsize) /\
  (forall maxsize v, 0 < maxsize -> - maxsize <= v <= maxsize ->
   exists rnd', in_bounds rnd' /\
     arb_generator (primitive.integer (Args1 maxsize)) rnd' size = v).
Proof.
  intros Hrnd. split; [ | split].
  - intros Hs. pose proof (integer_impl_range rnd None size Hrnd Hs) as H.
    change (arb_generator (primitive.integer Args0) rnd size)
      with (arb_generator (primitive.integer_impl None) rnd size).
    simpl or_size in H. lia.
  - intros maxsize Hm.
    pose proof (integer_impl_range rnd (Some maxsize) size Hrnd) as H.
    rewrite (or_size_positive maxsize size Hm) in H.
    change (arb_generator (primitive.integer (Args1 maxsize)) rnd size)
      with (arb_generator (primitive.integer_impl (Some maxsize)) rnd size).
    lia.
  - intros maxsize v Hm Hv. exists (source_of v).
    split; [apply source_of_in_bounds | ].
    change (arb_generator (primitive.integer (Args1 maxsize)) (source_of v) size)
      with (random (source_of v) (- or_size (Some maxsize) size)
                                 (or_size (Some maxsize) size)).
    rewrite (or_size_positive maxsize size Hm).
    apply source_of_hit. exact Hv.
Qed.

Lemma integer_generator_range_witness :
  - 5 <= arb_generator (primitive.integer (Args1 5)) lower_source 100 <= 5 /\
  - 9 <= arb_generator (primitive.integer Args0) upper_source 9 <= 9 /\
  exists rnd', in_bounds rnd' /\
    arb_generator (primitive.integer (Args1 5)) rnd' 100 = -3.
Proof.
  split; [ | split].
  - apply (integer_generator_range lower_source 100 lower_source_in_bounds).
    lia.
  - apply (integer_generator_range upper_source 9 upper_source_in_bounds).
    lia.
  - apply (integer_generator_range lower_source 100 lower_source_in_bounds);
      lia.
Defined.

(** X2: with a random source that respects its bounds, [nat()] at a size
    [size >= 0] yields a value in [[0, size]], and [nat(maxsize)] with
    [maxsize > 0] yields a value in [[0, maxsize]] whatever the size;
    every value of that range can come out. *)
Theorem nat_generator_range (rnd : RandomSource) (size : Z) :
  in_bounds rnd ->
  (0 <= size -> 0 <= arb_generator (primitive.nat None) rnd size <= size) /\
  (forall maxsize, 0 < maxsize ->
   0 <= arb_generator (primitive.nat (Some maxsize)) rnd size <= maxsize) /\
  (forall maxsize v, 0 < maxsize -> 0 <= v <= maxsize ->
   exists rnd', in_bounds rnd' /\
     arb_generator (primitive.nat (Some maxsize)) rnd' size = v).
Proof.
  intros Hrnd. split; [ | split].
  - intros Hs. apply (nat_range rnd None size Hrnd Hs).
  - intros maxsize Hm.
    pose proof (nat_range rnd (Some maxsize) size Hrnd) as H.
    rewrite (or_size_positive maxsize size Hm) in H. apply H. lia.
  - intros maxsize v Hm Hv. exists (source_of v).
    split; [apply source_of_in_bounds | ].
    change (arb_generator (primitive.nat (Some maxsize)) (source_of v) size)
      with (random (source_of v) 0 (or_size (Some maxsize) size)).
    rewrite (or_size_positive maxsize size Hm).
    apply source_of_hit. exact Hv.
Qed.

Lemma nat_generator_range_witness :
  0 <= arb_generator (primitive.nat (Some 5)) upper_source 100 <= 5 /\
  0 <= arb_generator (primitive.nat None) upper_source 9 <= 9 /\
  exists rnd', in_bounds rnd' /\
    arb_generator (primitive.nat (Some 5)) rnd' 100 = 3.
Proof.
  split; [ | split].
  - apply (nat_generator_range upper_source 100 upper_source_in_bounds). lia.
  - apply (nat_generator_range upper_source 9 upper_source_in_bounds). lia.
  - apply (nat_generator_range upper_source 100 upper_source_in_bounds); lia.
Defined.

(** X3: the fixed-width aliases do not look at the size.  [uint8],
    [uint16] and [uint32] stay within [[0, 2^w - 1]]; [int8], [int16] and
    [int32] stay within [[-2^(w-1), 2^(w-1)]], and the upper end
    [2^(w-1)], one more than a signed [w]-bit integer holds, can come
    out. *)
Theorem fixed_width_ranges (rnd : RandomSource) (size : Z) :
  in_bounds rnd ->
  0 <= arb_generator primitive.uint8 rnd size <= 255 /\
  0 <= arb_generator primitive.uint16 rnd size <= 65535 /\
  0 <= arb_generator primitive.uint32 rnd size <= 4294967295 /\
  - 128 <= arb_generator primitive.int8 rnd size <= 128 /\
  - 32768 <= arb_generator primitive.int16 rnd size <= 32768 /\
  - 2147483648 <= arb_generator primitive.int32 rnd size <= 2147483648 /\
  arb_generator primitive.int8 upper_source size = 128 /\
  arb_generator primitive.int16 upper_source size = 32768 /\
  arb_generator primitive.int32 upper_source size = 2147483648.
Proof.
  intros Hrnd.
  pose proof (nat_range rnd (Some 255) size Hrnd) as H8.
  pose proof (nat_range rnd (Some 65535) size Hrnd) as H16.
  pose proof (nat_range rnd (Some 4294967295) size Hrnd) as H32.
  pose proof (integer_impl_range rnd (Some 128) size Hrnd) as I8.
  pose proof (integer_impl_range rnd (Some 32768) size Hrnd) as I16.
  pose proof (integer_impl_range rnd (Some 2147483648) size Hrnd) as I32.
  rewrite or_size_positive in H8, H16, H32, I8, I16, I32 by lia.
  unfold primitive.uint8, primitive.uint16, primitive.uint32,
    primitive.int8, primitive.int16, primitive.int32.
  change (primitive.integer (Args1 128))
    with (primitive.integer_impl (Some 128)).
  change (primitive.integer (Args1 32768))
    with (primitive.integer_impl (Some 32768)).
  change (primitive.integer (Args1 2147483648))
    with (primitive.integer_impl (Some 2147483648)).
  repeat split; try lia; try (apply H8; lia); try (apply H16; lia);
    try (apply H32; lia).
Qed.

Lemma fixed_width_ranges_witness :
  - 128 <= arb_generator primitive.int8 lower_source 1000 <= 128.
Proof.
  apply (fixed_width_ranges lower_source 1000 lower_source_in_bounds).
Defined.

(** ** Shape of the shrink schedule *)

Lemma magnitude_after_lt (j k : Z) (m n : nat) :
  (m < n)%nat -> magnitude_after j k m < magnitude_after j k n.
Proof.
  induction 1 as [ | n Hle IH].
  - change (magnitude_after j k (S m))
      with (magnitude_after j k m + step_after k (S m)).
    pose proof (step_after_pos k m). lia.
  - change (magnitude_after j k (S n))
      with (magnitude_after j k n + step_after k (S n)).
    pose proof (step_after_pos k n). lia.
Qed.

(** The number of turns of the loop is determined by the schedule. *)
Lemma schedule_count_unique (i j k : Z) (n n' : nat) :
  (forall m, (m < n)%nat -> magnitude_after j k m < i) ->
  i <= magnitude_after j k n ->
  (forall m, (m < n')%nat -> magnitude_after j k m < i) ->
  i <= magnitude_after j k n' ->
  n = n'.
Proof.
  intros Hlt Hge Hlt' Hge'.
  destruct (Nat.lt_trichotomy n n') as [H | [H | H]]; [ | exact H | ].
  - specialize (Hlt' n H). lia.
  - specialize (Hlt n' H). lia.
Qed.

(** The loop keeps the step within the distance left, until the step is
    1; so the schedule lands on [i] itself, by a last step of 1. *)
Lemma schedule_lands (i : Z) (n : nat) :
  forall j k,
    1 <= k -> 0 <= i - j -> (k = 1 \/ k <= i - j) ->
    (forall m, (m < n)%nat -> magnitude_after j k m < i) ->
    i <= magnitude_after j k n ->
    magnitude_after j k n = i /\ step_after k n = 1.
Proof.
  induction n as [ | n IH]; intros j k Hk Hr Hinv Hlt Hge.
  - simpl in *. lia.
  - pose proof (Hlt O (Nat.lt_0_succ n)) as Hj. simpl in Hj.
    rewrite <- (magnitude_after_shift j k n), <- (step_after_shift k n).
    rewrite <- (magnitude_after_shift j k n) in Hge.
    assert (Hhalf : 2 <= k -> k / 2 <= k - k / 2 /\ 1 <= k / 2).
    { intros H2. pose proof (Z.div_mod k 2). pose proof (Z.mod_pos_bound k 2).
      lia. }
    assert (Hsmall : k = 1 -> k / 2 = 0) by (intros ->; reflexivity).
    apply IH.
    + lia.
    + unfold div2. destruct (Z.eq_dec k 1); [rewrite (Hsmall e); lia | lia].
    + unfold div2.
      destruct (Z.eq_dec k 1); [rewrite (Hsmall e); lia | right; lia].
    + intros m Hm. rewrite magnitude_after_shift. apply Hlt. lia.
    + exact Hge.
Qed.

(** The number of turns is logarithmic in the first step. *)
Lemma schedule_count_log (i : Z) (n : nat) :
  forall j k,
    1 <= k ->
    (forall m, (m < n)%nat -> magnitude_after j k m < i) ->
    (0 < n)%nat ->
    Z.of_nat n <= Z.max 0 (i - j - k) + 2 * Z.log2 k + 1.
Proof.
  induction n as [ | n IH]; intros j k Hk Hlt Hn; [lia | ].
  pose proof (Hlt O (Nat.lt_0_succ n)) as Hj. simpl in Hj.
  pose proof (Z.log2_nonneg k) as Hlog.
  destruct n as [ | n]; [lia | ].
  assert (Hlt' : forall m, (m < S n)%nat ->
            magnitude_after (j + Z.max (div2 k) 1) (Z.max (div2 k) 1) m < i).
  { intros m Hm. rewrite magnitude_after_shift. apply Hlt. lia. }
  specialize (IH (j + Z.max (div2 k) 1) (Z.max (div2 k) 1)
                 ltac:(lia) Hlt' ltac:(lia)).
  pose proof (Hlt' O (Nat.lt_0_succ n)) as Hj'. simpl in Hj'.
  unfold div2 in *.
  destruct (Z.eq_dec k 1) as [-> | Hk1].
  - change (1 / 2) with 0 in *. change (Z.max 0 1) with 1 in *.
    change (Z.log2 1) with 0 in *. lia.
  - assert (Hdiv : 1 <= k / 2 /\ k <= 2 * (k / 2) + 1).
    { pose proof (Z.div_mod k 2). pose proof (Z.mod_pos_bound k 2). lia. }
    replace (Z.max (k / 2) 1) with (k / 2) in * by lia.
    assert (Hl : Z.log2 (k / 2) = Z.log2 k - 1).
    { change (k / 2) with (k / 2 ^ 1).
      rewrite <- (Z.shiftr_div_pow2 k 1) by lia.
      rewrite Z.log2_shiftr by lia.
      assert (1 <= Z.log2 k).
      { change 1 with (Z.log2 2). apply Z.log2_le_mono. lia. }
      lia. }
    rewrite Hl in IH. lia.
Qed.

Lemma magnitudes_sorted (a : Z) (n s : nat) :
  StronglySorted Z.lt (List.map (magnitude a) (seq s n)).
Proof.
  revert s. induction n as [ | n IH]; intros s; simpl; constructor.
  - apply IH.
  - apply Forall_forall. intros y Hy.
    apply in_map_iff in Hy. destruct Hy as (m & <- & Hm).
    apply in_seq in Hm. apply magnitude_after_lt. lia.
Qed.

Lemma magnitudes_last (a : Z) (n : nat) (d : Z) :
  last (magnitudes a (S n)) d = magnitude a n.
Proof.
  unfold magnitudes. rewrite seq_S, map_app. simpl. apply last_last.
Qed.

Lemma magnitudes_length (a : Z) (n : nat) :
  List.length (magnitudes a n) = n.
Proof. unfold magnitudes. now rewrite length_map, length_seq. Qed.

Lemma both_signs_length (l : list Z) :
  List.length (both_signs l) = (2 * List.length l)%nat.
Proof. induction l as [ | x l IH]; simpl in *; lia. Qed.

(** The integer shrinker is the nat shrinker run on the magnitude, with
    [0] in front and each candidate in both signs. *)
Lemma integer_shrink_nat_shrink (i : Z) :
  Z.abs i <> 0 ->
  primitive.integer_shrink i
  = 0 :: both_signs (primitive.nat_shrink (Z.abs i)).
Proof.
  intros Hne.
  destruct (integer_shrink_schedule i Hne) as (n & Hrun & Hlt & Hge).
  destruct (nat_shrink_schedule (Z.abs i)) as (n' & Hrun' & Hlt' & Hge').
  rewrite Hrun, Hrun'. do 3 f_equal.
  exact (schedule_count_unique _ _ _ n n' Hlt Hge Hlt' Hge').
Qed.

(** X4: on integers of magnitude at most [2^53], the integer shrinker
    only looks at the magnitude of its input, and for a non-zero input
    its candidates are [0] followed by the candidates of the nat
    shrinker for that magnitude, each first with the sign [+] and then
    with the sign [-]. *)
Theorem integer_shrink_from_nat_shrink (i : Z) :
  safe i ->
  (exists fuel, forall f, (fuel <= f)%nat ->
     integer_shrink64 f (- i) = integer_shrink64 f i /\
     integer_shrink64 f i = Some (arb_shrink (primitive.integer Args0) i)) /\
  arb_shrink (primitive.integer Args0) (- i)
  = arb_shrink (primitive.integer Args0) i /\
  (i <> 0 ->
   arb_shrink (primitive.integer Args0) i
   = 0 :: both_signs (arb_shrink (primitive.nat None) (Z.abs i))).
Proof.
  intros Hsafe.
  change (arb_shrink (primitive.integer Args0)) with primitive.integer_shrink.
  change (arb_shrink (primitive.nat None)) with primitive.nat_shrink.
  split; [ | split].
  - destruct (integer_shrink64_exact i Hsafe) as (fuel & Hfuel).
    exists fuel. intros f Hf. split; [ | exact (Hfuel f Hf)].
    unfold integer_shrink64. now rewrite Z.abs_opp.
  - unfold primitive.integer_shrink. now rewrite Z.abs_opp.
  - intros Hi. apply integer_shrink_nat_shrink. lia.
Qed.

Lemma integer_shrink_from_nat_shrink_witness :
  primitive.integer_shrink (-10)
  = 0 :: both_signs (primitive.nat_shrink 10).
Proof.
  assert (Hsafe : safe (-10)) by (unfold safe; simpl; lia).
  apply (proj2 (proj2 (integer_shrink_from_nat_shrink (-10) Hsafe))).
  discriminate.
Defined.

(** X5: on integers of magnitude at most [2^53], every candidate of the
    integer shrinker is strictly smaller in magnitude than the input, so
    neither the input nor its negation is ever proposed and every chain
    of shrinks ends. *)
Theorem integer_shrink_strictly_smaller (i c : Z) :
  safe i ->
  In c (arb_shrink (primitive.integer Args0) i) ->
  (exists fuel l, integer_shrink64 fuel i = Some l /\ In c l) /\
  Z.abs c < Z.abs i /\ c <> i /\ c <> - i.
Proof.
  intros Hsafe Hc. split.
  - destruct (integer_shrink64_exact i Hsafe) as (fuel & Hfuel).
    exists fuel, (primitive.integer_shrink i).
    split; [apply Hfuel, Nat.le_refl | exact Hc].
  - apply integer_shrink_smaller in Hc. lia.
Qed.

Lemma integer_shrink_strictly_smaller_witness :
  Z.abs (-3) < Z.abs 4 /\ -3 <> 4 /\ -3 <> - 4.
Proof.
  assert (Hsafe : safe 4) by (unfold safe; simpl; lia).
  apply (integer_shrink_strictly_smaller 4 (-3) Hsafe).
  vm_compute. tauto.
Defined.

(** X6: for [1 <= n <= 2^53] the nat shrinker returns its candidates in
    strictly increasing order, the first is [n / 2] and the last is
    [n - 1]. *)
Theorem nat_shrink_ascending (n : Z) :
  1 <= n <= 2 ^ 53 ->
  let candidates := arb_shrink (primitive.nat None) n in
  (exists fuel, forall f, (fuel <= f)%nat ->
     nat_shrink64 f n = Some candidates) /\
  StronglySorted Z.lt candidates /\
  hd_error candidates = Some (n / 2) /\
  last candidates 0 = n - 1.
Proof.
  intros [Hn Hmax].
  change (arb_shrink (primitive.nat None) n) with (primitive.nat_shrink n).
  cbv zeta.
  split; [apply nat_shrink64_exact; lia | ].
  destruct (nat_shrink_schedule n) as (count & Hrun & Hlt & Hge).
  rewrite Hrun.
  assert (Hhalf : n / 2 < n) by (apply Z.div_lt; lia).
  destruct count as [ | count].
  { unfold magnitude in Hge. simpl in Hge. lia. }
  split; [apply magnitudes_sorted | split; [reflexivity | ]].
  rewrite magnitudes_last.
  assert (Hdiv : 0 <= n / 2) by (apply Z.div_pos; lia).
  assert (Hstart : Z.max (n / 2) 1 = 1 \/ Z.max (n / 2) 1 <= n - n / 2).
  { pose proof (Z.div_mod n 2). pose proof (Z.mod_pos_bound n 2). lia. }
  destruct (schedule_lands n (S count) (n / 2) (Z.max (n / 2) 1)
              ltac:(lia) ltac:(lia) Hstart Hlt Hge) as [Hland Hstep].
  unfold magnitude.
  change (magnitude_after (n / 2) (Z.max (n / 2) 1) (S count))
    with (magnitude_after (n / 2) (Z.max (n / 2) 1) count
          + step_after (Z.max (n / 2) 1) (S count)) in Hland.
  lia.
Qed.

Lemma nat_shrink_ascending_witness :
  hd_error (primitive.nat_shrink 100) = Some 50 /\
  last (primitive.nat_shrink 100) 0 = 99.
Proof.
  assert (Hn : 1 <= 100 <= 2 ^ 53) by (split; [lia | discriminate]).
  pose proof (nat_shrink_ascending 100 Hn) as (_ & _ & Hhd & Hlast).
  split; [exact Hhd | exact Hlast].
Defined.

Lemma nat_shrink_count (n : Z) :
  1 <= n ->
  Z.of_nat (List.length (primitive.nat_shrink n)) <= 2 * Z.log2 n + 1.
Proof.
  intros Hn.
  destruct (nat_shrink_schedule n) as (count & Hrun & Hlt & Hge).
  rewrite Hrun, magnitudes_length.
  pose proof (Z.log2_nonneg n) as Hlog.
  destruct count as [ | count]; [lia | ].
  pose proof (schedule_count_log n (S count) (n / 2) (Z.max (n / 2) 1)
                ltac:(lia) Hlt ltac:(lia)) as Hbound.
  assert (Hdiv : 0 <= n / 2 /\ n <= 2 * (n / 2) + 1).
  { pose proof (Z.div_mod n 2). pose proof (Z.mod_pos_bound n 2). lia. }
  destruct (Z.eq_dec n 1) as [-> | Hn1].
  - change (1 / 2) with 0 in Hbound. change (Z.max 0 1) with 1 in Hbound.
    change (Z.log2 1) with 0 in *. lia.
  - replace (Z.max (n / 2) 1) with (n / 2) in Hbound by lia.
    assert (Hl : Z.log2 (n / 2) = Z.log2 n - 1).
    { change (n / 2) with (n / 2 ^ 1).
      rewrite <- (Z.shiftr_div_pow2 n 1) by lia.
      rewrite Z.log2_shiftr by lia.
      assert (1 <= Z.log2 n).
      { change 1 with (Z.log2 2). apply Z.log2_le_mono. lia. }
      lia. }
    rewrite Hl in Hbound. lia.
Qed.

(** X7: up to [2^53] the shrinkers return logarithmically many
    candidates: at most [2 log2 n + 1] for the nat shrinker on
    [1 <= n <= 2^53], and at most [4 log2 |i| + 3] for the integer
    shrinker on [i <> 0] of magnitude at most [2^53]. *)
Theorem shrink_candidates_logarithmic (n : Z) :
  (1 <= n <= 2 ^ 53 ->
   exists fuel l,
     nat_shrink64 fuel n = Some l /\
     l = arb_shrink (primitive.nat None) n /\
     Z.of_nat (List.length l) <= 2 * Z.log2 n + 1) /\
  (n <> 0 -> safe n ->
   exists fuel l,
     integer_shrink64 fuel n = Some l /\
     l = arb_shrink (primitive.integer Args0) n /\
     Z.of_nat (List.length l) <= 4 * Z.log2 (Z.abs n) + 3).
Proof.
  change (arb_shrink (primitive.integer Args0)) with primitive.integer_shrink.
  change (arb_shrink (primitive.nat None)) with primitive.nat_shrink.
  split.
  - intros [Hn Hmax].
    destruct (nat_shrink64_exact n) as (fuel & Hfuel); [lia | ].
    exists fuel, (primitive.nat_shrink n).
    split; [apply Hfuel, Nat.le_refl | split; [reflexivity | ]].
    apply nat_shrink_count. exact Hn.
  - intros Hne Hsafe.
    destruct (integer_shrink64_exact n Hsafe) as (fuel & Hfuel).
    exists fuel, (primitive.integer_shrink n).
    split; [apply Hfuel, Nat.le_refl | split; [reflexivity | ]].
    rewrite integer_shrink_nat_shrink by lia.
    simpl List.length. rewrite both_signs_length.
    pose proof (nat_shrink_count (Z.abs n) ltac:(lia)). lia.
Qed.

Lemma shrink_candidates_logarithmic_witness :
  (exists fuel l, nat_shrink64 fuel 1000 = Some l /\
     l = primitive.nat_shrink 1000 /\
     Z.of_nat (List.length l) <= 2 * Z.log2 1000 + 1) /\
  (exists fuel l, integer_shrink64 fuel (-1000) = Some l /\
     l = primitive.integer_shrink (-1000) /\
     Z.of_nat (List.length l) <= 4 * Z.log2 (Z.abs (-1000)) + 3).
Proof.
  split.
  - apply (proj1 (shrink_candidates_logarithmic 1000)).
    split; [lia | discriminate].
  - apply (proj2 (shrink_candidates_logarithmic (-1000))).
    + discriminate.
    + unfold safe. simpl. lia.
Defined.

(** ** The rescaled integer arbitrary *)

Lemma nat_shrink_nonneg (a c : Z) :
  0 <= a -> In c (primitive.nat_shrink a) -> 0 <= c < a.
Proof.
  intros Ha Hc.
  destruct (nat_shrink_schedule a) as (n & Hrun & Hlt & _).
  rewrite Hrun in Hc. apply in_magnitudes in Hc.
  destruct Hc as (m & Hm & ->).
  pose proof (Hlt m Hm). pose proof (magnitude_nonneg a m Ha). lia.
Qed.

Lemma map_to_both_signs (minsize : Z) (l : list Z) :
  Forall (fun j => 0 <= j) l ->
  List.map (primitive.to minsize) (both_signs l)
  = flat_map (fun j => [j + minsize; j + minsize]) l.
Proof.
  induction 1 as [ | j l Hj _ IH]; [reflexivity | ].
  simpl. rewrite IH. unfold primitive.to. simpl.
  rewrite Z.abs_opp, (Z.abs_eq j Hj). reflexivity.
Qed.

Lemma integer_rescale_shrink_form (minsize maxsize v : Z) :
  v <> minsize ->
  arb_shrink (primitive.integer (Args2 minsize maxsize)) v
  = minsize :: flat_map (fun j => [j + minsize; j + minsize])
                        (primitive.nat_shrink (Z.abs (v - minsize))).
Proof.
  intros Hv.
  change (arb_shrink (primitive.integer (Args2 minsize maxsize)) v)
    with (List.map (primitive.to minsize)
            (primitive.integer_shrink (v - minsize))).
  rewrite integer_shrink_nat_shrink by lia.
  rewrite map_cons, map_to_both_signs; [reflexivity | ].
  apply Forall_forall. intros c Hc.
  apply nat_shrink_nonneg in Hc; lia.
Qed.

(** X8: on integers that binary64 holds exactly ([minsize], [v] and
    their distance of magnitude at most [2^53]) and for [v >= minsize],
    the shrinker of [integer(minsize, maxsize)] proposes nothing for
    [minsize]; for another value it proposes [minsize] and then, twice
    each, the nat-shrinker candidates of the distance to [minsize] moved
    up by [minsize].  Every candidate lies in [[minsize, v)]: shrinking
    stays in range and makes progress. *)
Theorem integer_rescale_shrink_candidates (minsize maxsize v : Z) :
  safe minsize -> safe v -> minsize <= v -> v - minsize <= 2 ^ 53 ->
  let candidates := arb_shrink (primitive.integer (Args2 minsize maxsize)) v in
  (exists fuel, forall f, (fuel <= f)%nat ->
     option_map (List.map (primitive.to minsize))
       (integer_shrink64 f (primitive.from minsize v))
     = Some candidates) /\
  (v = minsize -> candidates = []) /\
  (v <> minsize ->
   candidates
   = minsize :: flat_map (fun j => [j + minsize; j + minsize])
                  (arb_shrink (primitive.nat None) (Z.abs (v - minsize)))) /\
  (forall c, In c candidates -> minsize <= c < v).
Proof.
  intros _ _ Hge Hspan. cbv zeta. split; [ | split; [ | split]].
  - destruct (integer_shrink64_exact (primitive.from minsize v))
      as (fuel & Hfuel).
    { unfold safe, primitive.from. simpl. lia. }
    exists fuel. intros f Hf. rewrite (Hfuel f Hf). reflexivity.
  - intros ->.
    change (arb_shrink (primitive.integer (Args2 minsize maxsize)) minsize)
      with (List.map (primitive.to minsize)
              (primitive.integer_shrink (minsize - minsize))).
    rewrite Z.sub_diag. reflexivity.
  - apply integer_rescale_shrink_form.
  - intros c Hc.
    destruct (Z.eq_dec v minsize) as [-> | Hne].
    + change (arb_shrink (primitive.integer (Args2 minsize maxsize)) minsize)
        with (List.map (primitive.to minsize)
                (primitive.integer_shrink (minsize - minsize))) in Hc.
      rewrite Z.sub_diag in Hc. destruct Hc.
    + rewrite (integer_rescale_shrink_form minsize maxsize v Hne) in Hc.
      destruct Hc as [<- | Hc]; [lia | ].
      apply in_flat_map in Hc. destruct Hc as (j & Hj & Hc).
      apply nat_shrink_nonneg in Hj; [ | lia].
      simpl in Hc. destruct Hc as [<- | [<- | []]]; lia.
Qed.

Lemma integer_rescale_shrink_candidates_witness :
  arb_shrink (primitive.integer (Args2 10 20)) 14
  = 10 :: flat_map (fun j => [j + 10; j + 10]) (primitive.nat_shrink 4) /\
  10 <= 13 < 14.
Proof.
  assert (H10 : safe 10) by (unfold safe; simpl; lia).
  assert (H14 : safe 14) by (unfold safe; simpl; lia).
  assert (Hge : 10 <= 14) by lia.
  assert (Hspan : 14 - 10 <= 2 ^ 53) by discriminate.
  pose proof (integer_rescale_shrink_candidates 10 20 14 H10 H14 Hge Hspan)
    as (_ & _ & Hform & Hrange).
  split.
  - apply Hform. discriminate.
  - apply Hrange. vm_compute. tauto.
Defined.



(** ** More on [elements] *)

Lemma elements_fields (S : Type) (args : list value) (arb : arbitrary S value) :
  primitive.elements args = Return arb ->
  args <> [] /\
  (forall rnd size,
     arb_generator arb rnd size
     = get args (random rnd 0 (Z.of_nat (List.length args) - 1))) /\
  (forall v, arb_shrink arb v = primitive.elements_shrink args v).
Proof.
  intros Hreturn. destruct args as [ | a rest]; [discriminate Hreturn | ].
  injection Hreturn as <-. split; [discriminate | split; reflexivity].
Qed.

Lemma get_in_range (args : list value) (i : Z) :
  0 <= i < Z.of_nat (List.length args) -> In (get args i) args.
Proof.
  intros Hi. unfold get.
  destruct (Z.ltb_spec i 0) as [H | _]; [lia | ].
  destruct (nth_error args (Z.to_nat i)) as [v | ] eqn:Hnth.
  - apply (nth_error_In _ _ Hnth).
  - apply nth_error_None in Hnth. lia.
Qed.

(** X10: a generator built by [elements] from a random source that
    respects its bounds only yields entries of the array, and every
    entry can come out. *)
Theorem elements_generator_member
  (S : Type) (args : list value) (arb : arbitrary S value) (size : S) :
  primitive.elements args = Return arb ->
  (forall rnd, in_bounds rnd -> In (arb_generator arb rnd size) args) /\
  (forall y, In y args ->
     exists rnd, in_bounds rnd /\ arb_generator arb rnd size = y).
Proof.
  intros Hreturn.
  destruct (elements_fields S args arb Hreturn) as (Hne & Hgen & _).
  assert (Hlen : 0 < Z.of_nat (List.length args)).
  { destruct args; [contradiction | simpl; lia]. }
  split.
  - intros rnd Hrnd. rewrite Hgen. apply get_in_range.
    pose proof (Hrnd 0 (Z.of_nat (List.length args) - 1)). lia.
  - intros y Hy. apply In_nth_error in Hy. destruct Hy as (n & Hn).
    assert (Hlt : (n < List.length args)%nat).
    { apply nth_error_Some. rewrite Hn. discriminate. }
    exists (source_of (Z.of_nat n)).
    split; [apply source_of_in_bounds | ].
    rewrite Hgen, source_of_hit by lia. unfold get.
    destruct (Z.ltb_spec (Z.of_nat n) 0) as [H | _]; [lia | ].
    now rewrite Nat2Z.id, Hn.
Qed.

Lemma elements_generator_member_witness :
  match primitive.elements (S := Z) [VString "a"; VString "b"; VString "c"] with
  | Return arb =>
      In (arb_generator arb upper_source 0)
         [VString "a"; VString "b"; VString "c"] /\
      exists rnd, in_bounds rnd /\ arb_generator arb rnd 0 = VString "b"
  | Throw _ => False
  end.
Proof.
  destruct (primitive.elements (S := Z) [VString "a"; VString "b"; VString "c"])
    as [arb | message] eqn:Hreturn; [ | discriminate Hreturn].
  pose proof (elements_generator_member Z _ arb 0 Hreturn) as (Hin & Hall).
  split.
  - apply Hin. exact upper_source_in_bounds.
  - apply Hall. right. left. reflexivity.
Defined.

(** A number strictly equal to some number is strictly equal to
    itself. *)
Lemma SFeqb_right_refl (x y : spec_float) :
  SFeqb x y = true -> SFeqb y y = true.
Proof.
  destruct y as [sy | sy | | sy my ey].
  - reflexivity.
  - now destruct sy.
  - now destruct x as [ | [ | ] | | ].
  - intros _. apply SFeqb_finite_refl.
Qed.

Lemma strict_eq_right_refl (x y : value) :
  strict_eq x y = true -> strict_eq y y = true.
Proof.
  destruct x, y; simpl; try discriminate; try reflexivity; intros H.
  - now destruct b0.
  - rewrite eqb_spec in *. exact (SFeqb_right_refl _ _ H).
  - apply String.eqb_refl.
  - apply Pos.eqb_refl.
Qed.

(** [indexOf] answers [-1] or an index of the array. *)
Lemma indexOf_from_bounds (args : list value) (x : value) (k : Z) :
  indexOf_from args x k = -1 \/
  k <= indexOf_from args x k < k + Z.of_nat (List.length args).
Proof.
  revert k. induction args as [ | a rest IH]; intros k; simpl.
  - now left.
  - destruct (strict_eq a x); [right; lia | ].
    destruct (IH (k + 1)) as [H | H]; [now left | right; lia].
Qed.

(** An entry that stands before index [n] is found before [n], if it is
    found at all. *)
Lemma indexOf_entry (before after : list value) (c : value) :
  In c before ->
  indexOf (before ++ after) c < Z.of_nat (List.length before).
Proof.
  intros Hc. unfold indexOf.
  destruct (indexOf_from_cases (before ++ after) c 0)
    as [[-> _] | (pre & y & post & Heq & Hy & Hpre & ->)]; [lia | ].
  destruct (Nat.lt_ge_cases (List.length pre) (List.length before))
    as [Hlt | Hge]; [lia | exfalso].
  assert (Hin : In c pre).
  { apply (f_equal (firstn (List.length before))) in Heq.
    rewrite firstn_app, Nat.sub_diag, firstn_all, firstn_O, app_nil_r in Heq.
    rewrite firstn_app in Heq.
    replace (List.length before - List.length pre)%nat with O in Heq by lia.
    rewrite firstn_O, app_nil_r in Heq.
    rewrite <- (firstn_skipn (List.length before) pre).
    apply in_or_app. left. now rewrite <- Heq. }
  apply strict_eq_right_refl in Hy.
  rewrite (Hpre c Hin) in Hy. discriminate.
Qed.

(** X11: every candidate the [elements] shrinker proposes for [v] is an
    entry of the array that [indexOf] places strictly before [v] (or
    does not find at all), so a chain of shrinks only moves towards the
    front and ends. *)
Theorem elements_shrink_moves_earlier
  (S : Type) (args : list value) (arb : arbitrary S value) (v c : value) :
  primitive.elements args = Return arb ->
  In c (arb_shrink arb v) ->
  In c args /\ indexOf args c < indexOf args v.
Proof.
  intros Hreturn Hc.
  destruct (elements_fields S args arb Hreturn) as (_ & _ & Hshrink).
  rewrite Hshrink in Hc. unfold primitive.elements_shrink in Hc.
  destruct (Z.leb_spec (indexOf args v) 0) as [_ | Hpos]; [destruct Hc | ].
  unfold indexOf in *.
  destruct (indexOf_from_cases args v 0)
    as [[Hidx _] | (before & y & after & -> & _ & _ & Hidx)]; [lia | ].
  rewrite Hidx in *. simpl Z.add in *.
  unfold slice0 in Hc. rewrite Nat2Z.id, firstn_before in Hc.
  split; [apply in_or_app; now left | ].
  apply (indexOf_entry before (y :: after) c Hc).
Qed.

Lemma elements_shrink_moves_earlier_witness :
  match primitive.elements (S := Z) [VString "a"; VString "b"; VString "c"] with
  | Return arb =>
      indexOf [VString "a"; VString "b"; VString "c"] (VString "b")
      < indexOf [VString "a"; VString "b"; VString "c"] (VString "c")
  | Throw _ => False
  end.
Proof.
  destruct (primitive.elements (S := Z) [VString "a"; VString "b"; VString "c"])
    as [arb | message] eqn:Hreturn; [ | discriminate Hreturn].
  apply (elements_shrink_moves_earlier Z _ arb (VString "c") (VString "b")
           Hreturn).
  injection Hreturn as <-. right. left. reflexivity.
Defined.

(** X12: a value that is not strictly equal to itself, that is [NaN],
    has no candidates under [elements], wherever it stands in the
    array. *)
Theorem elements_shrink_nan
  (S : Type) (args : list value) (arb : arbitrary S value) (v : value) :
  primitive.elements args = Return arb ->
  strict_eq v v = false ->
  indexOf args v = -1 /\ arb_shrink arb v = [].
Proof.
  intros Hreturn Hv.
  destruct (elements_fields S args arb Hreturn) as (_ & _ & Hshrink).
  rewrite Hshrink. unfold primitive.elements_shrink, indexOf.
  destruct (indexOf_from_cases args v 0)
    as [[-> _] | (before & y & after & _ & Hy & _)]; [now split | ].
  apply strict_eq_right_refl in Hy. rewrite Hv in Hy. discriminate.
Qed.

Lemma elements_shrink_nan_witness :
  match primitive.elements (S := Z) primitive.falsy_values with
  | Return arb => arb_shrink arb (VNumber nan) = []
  | Throw _ => False
  end.
Proof.
  destruct (primitive.elements (S := Z) primitive.falsy_values)
    as [arb | message] eqn:Hreturn; [ | discriminate Hreturn].
  apply (elements_shrink_nan Z _ arb (VNumber nan) Hreturn). reflexivity.
Defined.

(** ** [bool] *)

(** X13: the shrinker of [bool] proposes a candidate for [true] only,
    and the candidate is [false]: a candidate is never the input and has
    no candidates of its own. *)
Theorem bool_shrink_one_step (S : Type) (b c : value) :
  In c (arb_shrink (primitive.bool (S := S)) b) ->
  b = VBool true /\ c = VBool false /\
  strict_eq c b = false /\
  arb_shrink (primitive.bool (S := S)) c = [].
Proof.
  simpl. unfold shrink.bless.
  destruct b as [ | | [ | ] | | | ]; simpl; try contradiction.
  intros [<- | []]. repeat split.
Qed.

Lemma bool_shrink_one_step_witness :
  arb_shrink (primitive.bool (S := Z)) (VBool false) = [].
Proof.
  apply (bool_shrink_one_step Z (VBool true) (VBool false)).
  left. reflexivity.
Defined.

(** ** The rescaled number arbitrary and bounded dates *)

Section FloatSign.
Local Open Scope float_scope.

(** The sign given to a rounded result only shows in its sign. *)
Lemma SFabs_binary_round_aux (s s' : bool) (m e : Z) (l : location) :
  SFabs (binary_round_aux prec emax s m e l)
  = SFabs (binary_round_aux prec emax s' m e l).
Proof.
  unfold binary_round_aux.
  destruct (shr_fexp prec emax m e l) as [mrs' e'].
  destruct (shr_fexp prec emax _ e' loc_Exact) as [mrs'' e''].
  destruct (shr_m mrs'') as [ | p | p]; try reflexivity.
  destruct (e'' <=? emax - prec)%Z; reflexivity.
Qed.

Lemma SFabs_div_opp (x y : spec_float) :
  SFabs (SF64div (SFopp x) y) = SFabs (SF64div x y).
Proof.
  destruct x as [sx | sx | | sx mx ex], y as [sy | sy | | sy my ey];
    try reflexivity.
  unfold SF64div, SFdiv, SFopp.
  destruct (SFdiv_core_binary prec emax (Z.pos mx) ex (Z.pos my) ey)
    as [[mz ez] lz].
  apply SFabs_binary_round_aux.
Qed.

(** [|(-x) / y| = |x / y|] on binary64 numbers. *)
Lemma abs_div_opp (x y : float) : abs (- x / y) = abs (x / y).
Proof.
  apply Prim2SF_inj.
  rewrite !abs_spec, !div_spec, opp_spec. apply SFabs_div_opp.
Qed.

End FloatSign.

(** X14: the shrinker of [number(min, max)] proposes nothing for a value
    within [1e-6] of [min] and otherwise three candidates, of which the
    last two are the same number: [x/2] and [-x/2] of the distance [x]
    to [min] are folded onto each other by the absolute value. *)
Theorem number_rescale_shrink_candidates (minsize maxsize v : float) :
  let candidates := arb_shrink (primitive.number (Args2 minsize maxsize)) v in
  let x := (v - minsize)%float in
  ((1e-6 <? abs x)%float = true ->
   candidates = [0 + minsize; abs (x / 2) + minsize;
                 abs (x / 2) + minsize]%float) /\
  ((1e-6 <? abs x)%float = false -> candidates = []).
Proof.
  cbv zeta.
  change (arb_shrink (primitive.number (Args2 minsize maxsize)) v)
    with (List.map (primitive.to minsize)
            (primitive.number_shrink (v - minsize)%float)).
  unfold primitive.number_shrink. split; intros ->; [ | reflexivity].
  simpl. unfold primitive.to. simpl. now rewrite abs_div_opp.
Qed.

Lemma number_rescale_shrink_candidates_witness :
  arb_shrink (primitive.number (Args2 10 20)%float) 14%float
  = [10; 12; 12]%float /\
  arb_shrink (primitive.number (Args2 10 20)%float) 10%float = [].
Proof.
  pose proof (number_rescale_shrink_candidates 10 20 14) as (Hfar & _).
  pose proof (number_rescale_shrink_candidates 10 20 10) as (_ & Hnear).
  split; [apply Hfar | apply Hnear]; reflexivity.
Defined.

(** X15: the shrinker of [datetime(from, to)] proposes no date or three
    dates, and every date it proposes is its own round trip through
    [getTime] and [new Date]. *)
Theorem datetime_shrink_candidates (from to d : Date) :
  let candidates := arb_shrink (primitive.datetime (Some (from, to))) d in
  (candidates = [] \/ List.length candidates = 3%nat) /\
  (forall c, In c candidates -> newDate (getTime c) = c).
Proof.
  cbv zeta.
  change (arb_shrink (primitive.datetime (Some (from, to))) d)
    with (List.map newDate
            (List.map (primitive.to (getTime from))
               (primitive.number_shrink
                  (getTime d - getTime from)%float))).
  split.
  - unfold primitive.number_shrink.
    destruct (1e-6 <? abs (getTime d - getTime from))%float;
      [right | left]; reflexivity.
  - intros c Hc. apply in_map_iff in Hc. destruct Hc as (x & <- & _).
    apply newDate_getTime. apply TimeClip_idempotent.
Qed.

Lemma datetime_shrink_candidates_witness :
  newDate (getTime (newDate 3000)) = newDate 3000.
Proof.
  apply (proj2 (datetime_shrink_candidates (newDate 1000) (newDate 9000)
                  (newDate 5000)) (newDate 3000)).
  vm_compute. tauto.
Defined.
